(** * exec_every.h: call-site timers and optional results

    A shallow embedding of the header [src/exec_every.h] and the proofs of
    its specified behaviour.

    - [uint32_t] values are integers in [Z]; every conversion to
      [uint32_t] and the unsigned subtraction are written out with
      [wrap32].
    - Code supplied by the application (the clock function, conditions,
      callbacks) is a state transformer on the application state [U].
    - The function-local [static] handle of each template instantiation is
      an entry of a finite map from the instantiation's [Tag] to the
      handle object; a [Handle] (a [HandleBase*]) is the key of that entry,
      or the null pointer. *)

From stdpp Require Import base option gmap list strings.
From Stdlib Require Import ZArith Lia.

Open Scope Z_scope.

(** ** [uint32_t] *)

Definition wrap32 (z : Z) : Z := z mod 2 ^ 32.

(** ** Application code

    [Eff U A] is a piece of application code returning an [A]; it may read
    and change the application state. *)

Definition Eff (U A : Type) : Type := U -> A * U.

(** [MillisFunc]: a pointer to a function of no argument returning
    [uint32_t]. *)
Definition MillisFunc (U : Type) : Type := Eff U Z.

(** A call through a [MillisFunc]: the result has type [uint32_t]. *)
Definition call_millis {U} (millis : MillisFunc U) : Eff U Z :=
  fun u => let '(t, u) := millis u in (wrap32 t, u).

(** The shapes of condition that [detail::eval_] distinguishes, in the
    order overload resolution prefers them. *)
Inductive Condition (U : Type) : Type :=
| CondDt (c : Z -> Eff U bool)   (* [c(dt)] is well formed *)
| CondCall (c : Eff U bool)      (* [c()] is well formed *)
| CondBool (b : bool).           (* anything else: [return c;] *)

Arguments CondDt {U} c.
Arguments CondCall {U} c.
Arguments CondBool {U} b.

Definition eval {U} (c : Condition U) (dt : Z) : Eff U bool :=
  match c with
  | CondDt c => c dt
  | CondCall c => c
  | CondBool b => fun u => (b, u)
  end.

(** The two shapes of callback that [detail::invoke] distinguishes. *)
Inductive Callback (U R : Type) : Type :=
| FnDt (f : Z -> Eff U R)        (* [f(dt)] is well formed *)
| Fn (f : Eff U R).              (* [f()] *)

Arguments FnDt {U R} f.
Arguments Fn {U R} f.

Definition invoke {U R} (f : Callback U R) (dt : Z) : Eff U R :=
  match f with
  | FnDt f => f dt
  | Fn f => f
  end.

(** ** Handles *)

(** [using Handle = detail::HandleBase*;]  [None] is the null pointer,
    [Some tag] the address of the static handle of call site [tag]. *)
Definition Handle : Type := option nat.

(** ** [Maybe<T>] *)

Module Maybe.

(** [box] is the union member: [None] while no payload is constructed
    in it. *)
Record t (R : Type) : Type := mk { has : bool; handle : Handle; box : option R }.

Arguments mk {R} has handle box.
Arguments has {R} _.
Arguments handle {R} _.
Arguments box {R} _.

(** [Maybe(detail::HandleBase* handle)] *)
Definition ctor_empty {R} (h : Handle) : t R := mk false h None.

(** [Maybe(detail::HandleBase* handle, ValueType&& obj)] and its two
    siblings for lvalues and references. *)
Definition ctor_value {R} (h : Handle) (obj : R) : t R := mk true h (Some obj).

Definition valid {R} (m : t R) : bool := has m.

(** [value()] reads [box.obj]; the result is [None] where the program
    would read a payload that was never constructed. *)
Definition value {R} (m : t R) : option R := box m.

(** The private [reset()]. *)
Definition reset {R} (m : t R) : t R :=
  if has m then mk false (handle m) None else m.

(** [Maybe(Maybe const &other)] *)
Definition copy_ctor {R} (other : t R) : t R :=
  mk (has other) (handle other) (if has other then box other else None).

(** [Maybe(Maybe&& other)]: the new object and [other] afterwards. *)
Definition move_ctor {R} (other : t R) : t R * t R :=
  (mk (has other) (handle other) (if has other then box other else None),
   reset other).

(** The body of [operator=(Maybe&& other)] past its guard
    [if (this == &other) return *this;], for two distinct objects:
    [*this] and [other] afterwards. *)
Definition move_assign_body {R} (this other : t R) : t R * t R :=
  let this := if has this then reset this else this in
  let this := mk (has other) (handle this) (box this) in
  let this := mk (has this) (handle other) (box this) in
  let this := if has this then mk (has this) (handle this) (box other) else this in
  (this, reset other).

(** [operator=(Maybe&& other)] on objects in memory: [this] and [other]
    are addresses, and may be the same address. The result is [None]
    when an address holds no object. *)
Definition move_assign {R} (this other : nat) (mem : gmap nat (t R))
  : option (gmap nat (t R)) :=
  if decide (this = other) then
    _ ← mem !! this; Some mem
  else
    a ← mem !! this;
    b ← mem !! other;
    let '(a, b) := move_assign_body a b in
    Some (<[other := b]> (<[this := a]> mem)).

End Maybe.

(** ** [Maybe<void>]: a flag and a handle; the copy and move members are
    defaulted, so they copy the two fields and leave their argument as it
    is. *)

Module MaybeVoid.

Record t : Type := mk { has : bool; handle : Handle }.

(** [Maybe(detail::HandleBase* handle, bool ran = false)] *)
Definition ctor (h : Handle) (ran : bool) : t := mk ran h.

Definition valid (m : t) : bool := has m.

(** [Maybe(Maybe&&) = default;]: the new object and the argument
    afterwards. *)
Definition move_ctor (other : t) : t * t := (mk (has other) (handle other), other).

(** [Maybe(Maybe const &) = default;] *)
Definition copy_ctor (other : t) : t := mk (has other) (handle other).

(** [Maybe &operator=(Maybe&&) = default;] *)
Definition move_assign (this other : nat) (mem : gmap nat t) : option (gmap nat t) :=
  _ ← mem !! this;
  b ← mem !! other;
  Some (<[this := mk (has b) (handle b)]> mem).

End MaybeVoid.

(** ** [detail::MaybeFactory] *)

Module MaybeFactory.

Definition empty {R} (h : Handle) : Maybe.t R := Maybe.ctor_empty h.

Definition value {R} (h : Handle) (v : R) : Maybe.t R := Maybe.ctor_value h v.

Definition voidValue (h : Handle) : MaybeVoid.t := MaybeVoid.ctor h true.

End MaybeFactory.

(** [detail::RunAndReturn<Ret>::run] *)
Definition RunAndReturn_run {U R} (f : Callback U R) (dt : Z) (handle : Handle)
  : Eff U (Maybe.t R) :=
  fun u => let '(r, u) := invoke f dt u in (MaybeFactory.value handle r, u).

(** [detail::RunAndReturn<void>::run] *)
Definition RunAndReturn_void_run {U} (f : Callback U unit) (dt : Z) (handle : Handle)
  : Eff U MaybeVoid.t :=
  fun u => let '(_, u) := invoke f dt u in (MaybeFactory.voidValue handle, u).

(** ** [detail::LocalHandle<T>], with the callback of the derived class
    declared in [every_if_throttled_impl]

    The members are private to the header and receive [uint32_t] values
    only (clock readings and differences of them); the conversions are
    written out where values enter from the application. *)

Module LocalHandle.

Record t (U R : Type) : Type :=
  mk { last : Z; millis : MillisFunc U; f : Callback U R }.

Arguments mk {U R} last millis f.
Arguments last {U R} _.
Arguments millis {U R} _.
Arguments f {U R} _.

(** [LocalHandle(MillisFunc millis): last(millis()), millis(millis) {}] *)
Definition ctor {U R} (millis : MillisFunc U) (f : Callback U R) : Eff U (t U R) :=
  fun u => let '(now, u) := call_millis millis u in (mk now millis f, u).

(** [uint32_t dt(uint32_t now) const { return now - last; }] *)
Definition dt {U R} (h : t U R) (now : Z) : Z := wrap32 (now - last h).

(** [void reset(uint32_t now) { last = now; }] *)
Definition reset_at {U R} (h : t U R) (now : Z) : t U R :=
  mk now (millis h) (f h).

(** [virtual void reset() override { reset(millis()); }] *)
Definition reset {U R} (h : t U R) : Eff U (t U R) :=
  fun u => let '(now, u) := call_millis (millis h) u in (reset_at h now, u).

(** [virtual Maybe<Ret> exec(uint32_t dt) override]; [this] is the
    address of the handle. *)
Definition exec {U R} (this : Handle) (h : t U R) (dt : Z) : Eff U (Maybe.t R) :=
  RunAndReturn_run (f h) dt this.

End LocalHandle.

(** ** The program state: the static handles constructed so far and the
    application state *)

Record World (U R : Type) : Type :=
  mkWorld { sites : gmap nat (LocalHandle.t U R); user : U }.

Arguments mkWorld {U R} sites user.
Arguments sites {U R} _.
Arguments user {U R} _.

(** [getHandle(Maybe<T>&)] *)
Definition getHandle {R} (maybe : Maybe.t R) : Handle := Maybe.handle maybe.

(** [detail::reset(HandleBase *h) { if (h) h->reset(); }], reached through
    [exec::reset(Handle h)]. A non-null handle is the address of a static
    handle that was constructed (no other value of the type can be
    obtained from the interface); the last case is there for totality. *)
Definition reset {U R} (h : Handle) (w : World U R) : World U R :=
  match h with
  | None => w
  | Some tag =>
      match sites w !! tag with
      | Some handle =>
          let '(handle, u) := LocalHandle.reset handle (user w) in
          mkWorld (<[tag := handle]> (sites w)) u
      | None => w
      end
  end.

(** ** The scheduling policies *)

(** [every_if_throttled_impl<Tag, millis>(interval, runCondition,
    throttleCondition, f)]. The static [handle] is constructed when
    control passes its declaration for the first time, from the callback
    of that call; the state of the object at the end of the call is
    stored back. *)
Definition every_if_throttled_impl {U R} (Tag : nat) (millis : MillisFunc U)
    (interval : Z) (runCondition throttleCondition : Condition U)
    (f : Callback U R) (w : World U R) : Maybe.t R * World U R :=
  let interval := wrap32 interval in
  let '(handle, u) :=
    match sites w !! Tag with
    | Some handle => (handle, user w)
    | None => LocalHandle.ctor millis f (user w)
    end in
  let this : Handle := Some Tag in
  let '(now, u) := call_millis millis u in
  let dt := LocalHandle.dt handle now in
  let '(result, handle, u) :=
    if interval <=? dt then
      let '(throttle, u) := eval throttleCondition dt u in
      if throttle then
        let handle := LocalHandle.reset_at handle now in
        let '(run, u) := eval runCondition dt u in
        if run then
          let '(result, u) := LocalHandle.exec this handle dt u in
          (result, handle, u)
        else (MaybeFactory.empty this, handle, u)
      else (MaybeFactory.empty this, handle, u)
    else (MaybeFactory.empty this, handle, u) in
  (result, mkWorld (<[Tag := handle]> (sites w)) u).

(** Run at every interval regardless of any conditions. *)
Definition every_impl {U R} (Tag : nat) (millis : MillisFunc U) (interval : Z)
    (f : Callback U R) : World U R -> Maybe.t R * World U R :=
  every_if_throttled_impl Tag millis interval (CondBool true) (CondBool true) f.

(** Run only when the interval expires and the condition is met at that
    moment in time. *)
Definition every_if_impl {U R} (Tag : nat) (millis : MillisFunc U) (interval : Z)
    (c : Condition U) (f : Callback U R) : World U R -> Maybe.t R * World U R :=
  every_if_throttled_impl Tag millis interval c (CondBool true) f.

(** Run as soon as the interval has expired and the condition is met. *)
Definition throttled_impl {U R} (Tag : nat) (millis : MillisFunc U) (interval : Z)
    (c : Condition U) (f : Callback U R) : World U R -> Maybe.t R * World U R :=
  every_if_throttled_impl Tag millis interval (CondBool true) c f.

(** ** Forced execution *)

(** [detail::force<R>(Maybe<T> &maybe, uint32_t dt)], reached through
    [Maybe<T>::force(uint32_t dt = 0)]: the value returned, the object
    [maybe] afterwards and the program state afterwards. [None] where the
    program would dereference a pointer to no handle or read a payload
    that is not there. *)
Definition force {U R} (maybe : Maybe.t R) (dt : Z) (w : World U R)
  : option (R * Maybe.t R * World U R) :=
  let dt := wrap32 dt in
  if Maybe.valid maybe then
    r ← Maybe.value maybe; Some (r, maybe, w)
  else
    tag ← getHandle maybe;
    handle ← sites w !! tag;
    let '(tmp, u) := LocalHandle.exec (Some tag) handle dt (user w) in
    let '(maybe, _) := Maybe.move_assign_body maybe tmp in
    r ← Maybe.value maybe; Some (r, maybe, mkWorld (sites w) u).

(** ** The macros and a host loop

    [Call] is one expansion of [exec_every_with], [exec_every_if_with] or
    [exec_throttled_with] with its arguments as they are on one pass
    through [loop()]; the [Tag] and the clock function belong to the call
    site and are given to [poll]. *)

Inductive Call (U R : Type) : Type :=
| exec_every (interval : Z) (f : Callback U R)
| exec_every_if (interval : Z) (condition : Condition U) (f : Callback U R)
| exec_throttled (interval : Z) (condition : Condition U) (f : Callback U R).

Arguments exec_every {U R} interval f.
Arguments exec_every_if {U R} interval condition f.
Arguments exec_throttled {U R} interval condition f.

Definition interval_of {U R} (c : Call U R) : Z :=
  match c with
  | exec_every i _ | exec_every_if i _ _ | exec_throttled i _ _ => i
  end.

Definition poll {U R} (Tag : nat) (millis : MillisFunc U) (c : Call U R)
  : World U R -> Maybe.t R * World U R :=
  match c with
  | exec_every interval f => every_impl Tag millis interval f
  | exec_every_if interval condition f => every_if_impl Tag millis interval condition f
  | exec_throttled interval condition f => throttled_impl Tag millis interval condition f
  end.

(** A board: a millisecond counter, kept here as the unbounded number of
    milliseconds since start (the clock function returns it as a
    [uint32_t], so readings wrap around), and the state [E] of the
    application. *)
Record Board (E : Type) : Type := mkBoard { clock : Z; app : E }.

Arguments mkBoard {E} clock app.
Arguments clock {E} _.
Arguments app {E} _.

Definition board_millis {E} : MillisFunc (Board E) := fun b => (clock b, b).

(** Time passes until the counter shows [t]. *)
Definition at_time {E R} (t : Z) (w : World (Board E) R) : World (Board E) R :=
  mkWorld (sites w) (mkBoard t (app (user w))).

(** [loop Tag passes w]: the call site [Tag] is reached once per pass, at
    the time and with the arguments of the pass; the results of the
    passes in order and the final state. *)
Fixpoint loop {E R} (Tag : nat) (passes : list (Z * Call (Board E) R))
    (w : World (Board E) R) : list (Maybe.t R) * World (Board E) R :=
  match passes with
  | [] => ([], w)
  | (t, c) :: passes =>
      let '(m, w) := poll Tag board_millis c (at_time t w) in
      let '(ms, w) := loop Tag passes w in
      (m :: ms, w)
  end.

(** The schedule of the unconditional policy in the words of its
    specification: a poll at time [t] fires exactly when at least
    [interval] has elapsed since [since], the time of the last fire or of
    the start of the timer, and the timer then restarts at [t]. *)
Fixpoint schedule (interval since : Z) (times : list Z) : list bool :=
  match times with
  | [] => []
  | t :: times =>
      if interval <=? t - since
      then true :: schedule interval t times
      else false :: schedule interval since times
  end.

(** The times of the passes that fired, from the times of the passes and
    the [valid()] of their results. *)
Fixpoint fire_times (times : list Z) (fired : list bool) : list Z :=
  match times, fired with
  | t :: times, b :: fired =>
      if b then t :: fire_times times fired else fire_times times fired
  | _, _ => []
  end.

(** Any two neighbours in [l] are at least [d] apart. *)
Fixpoint spaced (d : Z) (l : list Z) : Prop :=
  match l with
  | a :: (b :: _) as l' => a + d <= b /\ spaced d l'
  | _ => True
  end.

(** The times of a list of passes do not go back. *)
Fixpoint ascending (since : Z) (times : list Z) : Prop :=
  match times with
  | [] => True
  | t :: times => since <= t /\ ascending t times
  end.

(** At every poll less than one full cycle of the 32-bit counter has
    passed since the timer was last restarted (by the schedule of the
    unconditional policy, which restarts it at each fire). *)
Fixpoint within_cycle (interval since : Z) (times : list Z) : Prop :=
  match times with
  | [] => True
  | t :: times =>
      since <= t < since + 2 ^ 32 /\
      within_cycle interval (if interval <=? t - since then t else since) times
  end.

(** The condition and the callback among the arguments of a call, and the
    two conditions that the call hands to [every_if_throttled_impl]. *)
Definition condition_of {U R} (c : Call U R) : Condition U :=
  match c with
  | exec_every _ _ => CondBool true
  | exec_every_if _ condition _ | exec_throttled _ condition _ => condition
  end.

Definition runCondition_of {U R} (c : Call U R) : Condition U :=
  match c with
  | exec_every_if _ condition _ => condition
  | exec_every _ _ | exec_throttled _ _ _ => CondBool true
  end.

Definition throttleCondition_of {U R} (c : Call U R) : Condition U :=
  match c with
  | exec_throttled _ condition _ => condition
  | exec_every _ _ | exec_every_if _ _ _ => CondBool true
  end.

Definition callback_of {U R} (c : Call U R) : Callback U R :=
  match c with
  | exec_every _ f | exec_every_if _ _ f | exec_throttled _ _ f => f
  end.

(** The condition of each pass evaluated once, in the order of the
    passes, on the time elapsed since [since], and nothing else run: the
    outcomes, and the state in which the application is left. *)
Fixpoint conditions_run {E R} (since : Z) (passes : list (Z * Call (Board E) R))
    (e : E) : list bool * E :=
  match passes with
  | [] => ([], e)
  | (t, c) :: passes =>
      let '(b, u) := eval (condition_of c) (t - since) (mkBoard t e) in
      let '(bs, e) := conditions_run since passes (app u) in
      (b :: bs, e)
  end.

(** The timer of call site [Tag] runs since the true time [since] when
    the passes begin: its handle exists and was last restarted at
    [since], or the handle does not exist yet and the first pass, which
    constructs it, is at [since]. *)
Definition timer_since {E R} (Tag : nat) (since : Z)
    (passes : list (Z * Call (Board E) R)) (w : World (Board E) R) : Prop :=
  match sites w !! Tag with
  | Some h => LocalHandle.last h = wrap32 since
  | None => head (map fst passes) = Some since
  end.

(** ** Concrete programs

    A callback that returns the elapsed time it is given, a callback of
    no argument, and a board on which no call site has been reached
    yet. *)

Definition report_dt : Callback (Board unit) Z := FnDt (fun dt b => (dt, b)).

Definition count_runs : Callback (Board nat) nat :=
  Fn (fun b => (S (app b), mkBoard (clock b) (S (app b)))).

(** A condition of no argument that holds from the time [t0] on. *)
Definition ready_from {E} (t0 : Z) : Condition (Board E) :=
  CondCall (fun b => (t0 <=? clock b, b)).

(** A board on which call site [Tag] was reached for the first time at
    the time [since], with callback [f]. *)
Definition started {E R} (Tag : nat) (since : Z) (f : Callback (Board E) R) (e : E)
  : World (Board E) R :=
  mkWorld {[Tag := LocalHandle.mk (wrap32 since) board_millis f]} (mkBoard since e).

Definition power_on {E R} (e : E) : World (Board E) R := mkWorld ∅ (mkBoard 0 e).

(** The passes of [loop()] at the given times, each with the same call. *)
Definition passes_at {U R} (c : Call U R) (times : list Z) : list (Z * Call U R) :=
  map (fun t => (t, c)) times.

(** ** Further members of [Maybe<T>] *)

(** The body of [operator=(Maybe const &other)] past its guard
    [if (this == &other) return *this;]: [*this] afterwards; [other] is
    not touched. *)
Definition Maybe_copy_assign_body {R} (this other : Maybe.t R) : Maybe.t R :=
  let this := if Maybe.has this then Maybe.reset this else this in
  let this := Maybe.mk (Maybe.has other) (Maybe.handle this) (Maybe.box this) in
  let this := Maybe.mk (Maybe.has this) (Maybe.handle other) (Maybe.box this) in
  if Maybe.has this
  then Maybe.mk (Maybe.has this) (Maybe.handle this) (Maybe.box other)
  else this.

(** [operator=(Maybe const &other)] on objects in memory. *)
Definition Maybe_copy_assign {R} (this other : nat) (mem : gmap nat (Maybe.t R))
  : option (gmap nat (Maybe.t R)) :=
  if decide (this = other) then
    _ ← mem !! this; Some mem
  else
    a ← mem !! this;
    b ← mem !! other;
    Some (<[this := Maybe_copy_assign_body a b]> mem).

(** The payload is constructed in the union exactly while [has] is
    set. *)
Definition Maybe_wf {R} (m : Maybe.t R) : Prop :=
  if Maybe.has m then is_Some (Maybe.box m) else Maybe.box m = None.

(** ** The instantiation for callbacks that return [void] *)

(** [exec] of the handle of a [void] callback:
    [RunAndReturn<void>::run(f, dt, this)]. *)
Definition LocalHandle_exec_void {U} (this : Handle) (h : LocalHandle.t U unit)
    (dt : Z) : Eff U MaybeVoid.t :=
  RunAndReturn_void_run (LocalHandle.f h) dt this.

(** [every_if_throttled_impl] where [Ret] is [void]: the result is a
    [Maybe<void>], empty as [Maybe<void>{h}] (its [ran] defaults to
    false). *)
Definition every_if_throttled_impl_void {U} (Tag : nat) (millis : MillisFunc U)
    (interval : Z) (runCondition throttleCondition : Condition U)
    (f : Callback U unit) (w : World U unit) : MaybeVoid.t * World U unit :=
  let interval := wrap32 interval in
  let '(handle, u) :=
    match sites w !! Tag with
    | Some handle => (handle, user w)
    | None => LocalHandle.ctor millis f (user w)
    end in
  let this : Handle := Some Tag in
  let '(now, u) := call_millis millis u in
  let dt := LocalHandle.dt handle now in
  let '(result, handle, u) :=
    if interval <=? dt then
      let '(throttle, u) := eval throttleCondition dt u in
      if throttle then
        let handle := LocalHandle.reset_at handle now in
        let '(run, u) := eval runCondition dt u in
        if run then
          let '(result, u) := LocalHandle_exec_void this handle dt u in
          (result, handle, u)
        else (MaybeVoid.ctor this false, handle, u)
      else (MaybeVoid.ctor this false, handle, u)
    else (MaybeVoid.ctor this false, handle, u) in
  (result, mkWorld (<[Tag := handle]> (sites w)) u).

(** [detail::force<void>(Maybe<void> &maybe, uint32_t dt)], reached
    through [Maybe<void>::force(uint32_t dt = 0)]: the object [maybe]
    afterwards (assigned by the defaulted move assignment) and the
    program state afterwards. *)
Definition force_void {U} (maybe : MaybeVoid.t) (dt : Z) (w : World U unit)
  : option (MaybeVoid.t * World U unit) :=
  let dt := wrap32 dt in
  if MaybeVoid.valid maybe then Some (maybe, w)
  else
    tag ← MaybeVoid.handle maybe;
    handle ← sites w !! tag;
    let '(tmp, u) := LocalHandle_exec_void (Some tag) handle dt (user w) in
    Some (MaybeVoid.mk (MaybeVoid.has tmp) (MaybeVoid.handle tmp), mkWorld (sites w) u).

(** A [Maybe<void>] seen as the flag and handle of a [Maybe] of a value
    without content. *)
Definition void_of (m : Maybe.t unit) : MaybeVoid.t :=
  MaybeVoid.mk (Maybe.has m) (Maybe.handle m).

(** ** Several call sites in one loop *)

(** Passes through several call sites: each pass names its call site. *)
Fixpoint loop_sites {E R} (passes : list (nat * (Z * Call (Board E) R)))
    (w : World (Board E) R) : list (Maybe.t R) * World (Board E) R :=
  match passes with
  | [] => ([], w)
  | (Tag, (t, c)) :: passes =>
      let '(m, w) := poll Tag board_millis c (at_time t w) in
      let '(ms, w) := loop_sites passes w in
      (m :: ms, w)
  end.

(** The passes through call site [Tag] among [passes], and what belongs
    to them in a list [xs] that runs parallel to [passes]. *)
Fixpoint passes_of {A} (Tag : nat) (passes : list (nat * A)) : list A :=
  match passes with
  | [] => []
  | (tag, p) :: passes =>
      if decide (tag = Tag) then p :: passes_of Tag passes else passes_of Tag passes
  end.

Fixpoint results_of {A B} (Tag : nat) (passes : list (nat * A)) (xs : list B) : list B :=
  match passes, xs with
  | (tag, _) :: passes, x :: xs =>
      if decide (tag = Tag) then x :: results_of Tag passes xs else results_of Tag passes xs
  | _, _ => []
  end.

(** ** The header before handles ([src/unnamed/part_000])

    The timer is a function-local [static uint32_t last = 0;], the
    callback is the one of the current call, the clock is the global
    [millis], here a parameter, and a [Maybe] has no handle. *)

Module Legacy.

Record t (R : Type) : Type := mk { has : bool; box : option R }.

Arguments mk {R} has box.
Arguments has {R} _.
Arguments box {R} _.

(** The statics [last] of the instantiations that were entered, by
    [Tag]; a static that was never assigned holds its initial 0. *)
Definition last_of (lasts : gmap nat Z) (Tag : nat) : Z := default 0 (lasts !! Tag).

(** [every_if_throttled_impl<Tag>(interval, runCondition,
    throttleCondition, f)] *)
Definition every_if_throttled_impl {U R} (Tag : nat) (millis : MillisFunc U)
    (interval : Z) (runCondition throttleCondition : Condition U)
    (f : Callback U R) (lasts : gmap nat Z) (u : U) : t R * gmap nat Z * U :=
  let interval := wrap32 interval in
  let last := last_of lasts Tag in
  let '(now, u) := call_millis millis u in
  let dt := wrap32 (now - last) in
  if interval <=? dt then
    let '(throttle, u) := eval throttleCondition dt u in
    if throttle then
      let lasts := <[Tag := now]> lasts in
      let '(run, u) := eval runCondition dt u in
      if run then
        let '(r, u) := invoke f dt u in
        (mk true (Some r), lasts, u)
      else (mk false None, lasts, u)
    else (mk false None, lasts, u)
  else (mk false None, lasts, u).

(** Run at every interval regardless of any conditions. *)
Definition every_impl {U R} (Tag : nat) (millis : MillisFunc U) (interval : Z)
    (f : Callback U R) : gmap nat Z -> U -> t R * gmap nat Z * U :=
  every_if_throttled_impl Tag millis interval (CondBool true) (CondBool true) f.

End Legacy.

(** ** The example sketch ([src/unnamed/part_004])

    The application state is the list of lines printed on [Serial]. *)

(** [[]() -> String { return "Hello World"; }] *)
Definition hello : Callback (Board (list string)) string :=
  Fn (fun b => ("Hello World"%string, b)).

(** [Serial.println(s)] *)
Definition Serial_println {R} (s : string) (w : World (Board (list string)) R)
  : World (Board (list string)) R :=
  mkWorld (sites w) (mkBoard (clock (user w)) (app (user w) ++ [s])).

(** One run of the sketch's [loop()], at the time [t]. The sketch has
    one call site. *)
Definition sketch_loop (t : Z) (w : World (Board (list string)) string)
  : World (Board (list string)) string :=
  let '(result, w) := poll 0 board_millis (exec_every 1000 hello) (at_time t w) in
  if Maybe.valid result then
    match Maybe.value result with
    | Some s => Serial_println s w
    | None => w
    end
  else w.

(** The runs of [loop()] at the given times. *)
Definition sketch (times : list Z) (w : World (Board (list string)) string)
  : World (Board (list string)) string :=
  foldl (fun w t => sketch_loop t w) w times.

(** ** A loop that comes round every millisecond *)

(** [n] consecutive milliseconds from [start] on. *)
Fixpoint consecutive (start : Z) (n : nat) : list Z :=
  match n with
  | O => []
  | S n => start :: consecutive (start + 1) n
  end.

(** The first [k] times after [since] that are a multiple of [interval]
    away from it. *)
Fixpoint multiples (interval since : Z) (k : nat) : list Z :=
  match k with
  | O => []
  | S k => (since + interval) :: multiples interval (since + interval) k
  end.

(** ** The conditional policies over a run of the loop

    The passes of a loop whose condition is a plain value, given with
    the time of each pass. *)
Definition passes_if {U R} (interval : Z) (f : Callback U R) (tbs : list (Z * bool))
  : list (Z * Call U R) :=
  map (fun tb => (fst tb, exec_every_if interval (CondBool (snd tb)) f)) tbs.

Definition passes_throttled {U R} (interval : Z) (f : Callback U R) (tbs : list (Z * bool))
  : list (Z * Call U R) :=
  map (fun tb => (fst tb, exec_throttled interval (CondBool (snd tb)) f)) tbs.

(** In the words of the comment on [every_if_impl]: run only when the
    interval expires and the condition is met at that moment; if the
    interval expires and the condition is not met, the timer is reset
    and the condition is checked when it expires again. *)
Fixpoint schedule_if (interval since : Z) (tbs : list (Z * bool)) : list bool :=
  match tbs with
  | [] => []
  | (t, b) :: tbs =>
      if interval <=? t - since
      then b :: schedule_if interval t tbs
      else false :: schedule_if interval since tbs
  end.

(** In the words of the comment on [throttled_impl]: run as soon as the
    interval has expired and the condition is met; if the condition is
    not met, the timer keeps running and the condition is checked each
    subsequent time until it evaluates to true. *)
Fixpoint schedule_throttled (interval since : Z) (tbs : list (Z * bool)) : list bool :=
  match tbs with
  | [] => []
  | (t, b) :: tbs =>
      if (interval <=? t - since) && b
      then true :: schedule_throttled interval t tbs
      else false :: schedule_throttled interval since tbs
  end.

(** ** A board whose counter moves while a poll runs

    The first poll of a call site reads the clock twice, once in the
    constructor of the handle and once for [now]. On this board the
    next reading of the counter returns [reading] and every reading
    after it, until the loop comes round again, returns [later]. *)
Record Running (E : Type) : Type :=
  mkRunning { reading : Z; later : Z; running_app : E }.

Arguments mkRunning {E} reading later running_app.
Arguments reading {E} _.
Arguments later {E} _.
Arguments running_app {E} _.

Definition running_millis {E} : MillisFunc (Running E) :=
  fun b => (reading b, mkRunning (later b) (later b) (running_app b)).

(** The loop reaches the call site at the time [t], and the counter shows
    [t'] from the second reading on. *)
Definition at_times {E R} (t t' : Z) (w : World (Running E) R) : World (Running E) R :=
  mkWorld (sites w) (mkRunning t t' (running_app (user w))).

(** The time of the reading that a poll takes for [now]: the first
    reading where the handle exists, the second one at the first poll of
    the call site. *)
Definition now_at {E R} (Tag : nat) (t t' : Z) (w : World (Running E) R) : Z :=
  match sites w !! Tag with
  | Some _ => t
  | None => t'
  end.

(** The passes of a loop, each with the two times of its pass and its
    call: the time of [now] and the result of each poll, and the final
    state. *)
Fixpoint running_loop {E R} (Tag : nat) (passes : list (Z * Z * Call (Running E) R))
    (w : World (Running E) R) : list (Z * Maybe.t R) * World (Running E) R :=
  match passes with
  | [] => ([], w)
  | (t, t', c) :: passes =>
      let now := now_at Tag t t' w in
      let '(m, w) := poll Tag running_millis c (at_times t t' w) in
      let '(ms, w) := running_loop Tag passes w in
      ((now, m) :: ms, w)
  end.

(** Time does not go back, within a pass and from one pass to the
    next. *)
Fixpoint running_ascending {A} (since : Z) (passes : list (Z * Z * A)) : Prop :=
  match passes with
  | [] => True
  | (t, t', _) :: passes => since <= t /\ t <= t' /\ running_ascending t' passes
  end.

(** A clock that advances by one at every reading. *)
Definition ticking_clock : MillisFunc Z := fun n => (n, n + 1).

(** Two callbacks that can be values of one C++ type: they take the same
    arguments (the result type is the same by their Rocq type). The
    static handle belongs to one instantiation of
    [every_if_throttled_impl], and every poll of that instantiation
    passes a callback of its type [F]. *)
Definition same_type {U R} (f f' : Callback U R) : Prop :=
  match f, f' with
  | FnDt _, FnDt _ | Fn _, Fn _ => True
  | _, _ => False
  end.

(** ** Arithmetic of [uint32_t] *)

Lemma wrap32_range z : 0 <= wrap32 z < 2 ^ 32.
Proof. unfold wrap32. apply Z.mod_pos_bound. lia. Qed.

Lemma wrap32_small z : 0 <= z < 2 ^ 32 -> wrap32 z = z.
Proof. intros Hz. unfold wrap32. apply Z.mod_small. exact Hz. Qed.

Lemma wrap32_sub a b : wrap32 (wrap32 a - wrap32 b) = wrap32 (a - b).
Proof. unfold wrap32. symmetry. apply Zminus_mod. Qed.

Lemma wrap32_le z : 0 <= z -> wrap32 z <= z.
Proof. intros Hz. unfold wrap32. apply Z.mod_le; lia. Qed.

(** The elapsed time as the code computes it, for a timer started at the
    true time [since] and read at the true time [t]. *)
Lemma elapsed_exact since t :
  since <= t < since + 2 ^ 32 -> wrap32 (wrap32 t - wrap32 since) = t - since.
Proof. intros Ht. rewrite wrap32_sub. apply wrap32_small. lia. Qed.

Lemma elapsed_le since t :
  since <= t -> wrap32 (wrap32 t - wrap32 since) <= t - since.
Proof. intros Ht. rewrite wrap32_sub. apply wrap32_le. lia. Qed.

(** ** One poll *)

Section OnePoll.
Context {U R : Type}.
Implicit Types (w : World U R) (h : LocalHandle.t U R) (u : U).

(** A poll of a call site whose handle exists: the body of
    [every_if_throttled_impl] after the declaration of the static. *)
Lemma poll_constructed Tag millis interval rc tc f w h t u1 :
  sites w !! Tag = Some h ->
  millis (user w) = (t, u1) ->
  every_if_throttled_impl Tag millis interval rc tc f w =
    let now := wrap32 t in
    let dt := LocalHandle.dt h now in
    if wrap32 interval <=? dt then
      let '(throttle, u2) := eval tc dt u1 in
      if throttle then
        let '(run, u3) := eval rc dt u2 in
        let sites' := <[Tag := LocalHandle.reset_at h now]> (sites w) in
        if run then
          let '(r, u4) := invoke (LocalHandle.f h) dt u3 in
          (MaybeFactory.value (Some Tag) r, mkWorld sites' u4)
        else (MaybeFactory.empty (Some Tag), mkWorld sites' u3)
      else (MaybeFactory.empty (Some Tag), mkWorld (sites w) u2)
    else (MaybeFactory.empty (Some Tag), mkWorld (sites w) u1).
Proof.
  intros Hh Hm. unfold every_if_throttled_impl, call_millis.
  rewrite Hh, Hm. cbn zeta.
  destruct (wrap32 interval <=? _); [|by rewrite insert_id].
  destruct (eval tc _ u1) as [[] u2]; [|by rewrite insert_id].
  destruct (eval rc _ u2) as [[] u3]; [|done].
  unfold LocalHandle.exec, RunAndReturn_run. cbn.
  by destruct (invoke _ _ u3).
Qed.

(** The first poll of a call site constructs the handle, reading the
    clock for it, and goes on as a poll of the constructed site. *)
Lemma poll_first Tag millis interval rc tc f w t u1 :
  sites w !! Tag = None ->
  millis (user w) = (t, u1) ->
  every_if_throttled_impl Tag millis interval rc tc f w =
    every_if_throttled_impl Tag millis interval rc tc f
      (mkWorld (<[Tag := LocalHandle.mk (wrap32 t) millis f]> (sites w)) u1).
Proof.
  intros Hh Hm. unfold every_if_throttled_impl at 1 2.
  unfold LocalHandle.ctor, call_millis. cbn [sites user].
  rewrite Hh, Hm, lookup_insert_eq.
  destruct (millis u1) as [t' u2]. cbn zeta.
  destruct (if wrap32 interval <=? _ then _ else _) as [[m h'] u3].
  by rewrite insert_insert_eq.
Qed.

(** The interval has not expired: nothing is evaluated and nothing
    changes but what the clock function does. *)
Lemma poll_not_due Tag millis interval rc tc f w h t u1 :
  sites w !! Tag = Some h ->
  millis (user w) = (t, u1) ->
  LocalHandle.dt h (wrap32 t) < wrap32 interval ->
  every_if_throttled_impl Tag millis interval rc tc f w =
    (MaybeFactory.empty (Some Tag), mkWorld (sites w) u1).
Proof.
  intros Hh Hm Hdt. rewrite (poll_constructed _ _ _ _ _ _ _ _ _ _ Hh Hm). cbn zeta.
  destruct (Z.leb_spec (wrap32 interval) (LocalHandle.dt h (wrap32 t))); [lia|done].
Qed.

(** The interval has expired and the throttle condition is false. *)
Lemma poll_throttle_false Tag millis interval rc tc f w h t u1 u2 :
  sites w !! Tag = Some h ->
  millis (user w) = (t, u1) ->
  wrap32 interval <= LocalHandle.dt h (wrap32 t) ->
  eval tc (LocalHandle.dt h (wrap32 t)) u1 = (false, u2) ->
  every_if_throttled_impl Tag millis interval rc tc f w =
    (MaybeFactory.empty (Some Tag), mkWorld (sites w) u2).
Proof.
  intros Hh Hm Hdt Htc. rewrite (poll_constructed _ _ _ _ _ _ _ _ _ _ Hh Hm). cbn zeta.
  destruct (Z.leb_spec (wrap32 interval) (LocalHandle.dt h (wrap32 t))); [|lia].
  by rewrite Htc.
Qed.

(** The interval has expired, the throttle condition is true and the
    run condition is false. *)
Lemma poll_run_false Tag millis interval rc tc f w h t u1 u2 u3 :
  sites w !! Tag = Some h ->
  millis (user w) = (t, u1) ->
  wrap32 interval <= LocalHandle.dt h (wrap32 t) ->
  eval tc (LocalHandle.dt h (wrap32 t)) u1 = (true, u2) ->
  eval rc (LocalHandle.dt h (wrap32 t)) u2 = (false, u3) ->
  every_if_throttled_impl Tag millis interval rc tc f w =
    (MaybeFactory.empty (Some Tag),
     mkWorld (<[Tag := LocalHandle.reset_at h (wrap32 t)]> (sites w)) u3).
Proof.
  intros Hh Hm Hdt Htc Hrc. rewrite (poll_constructed _ _ _ _ _ _ _ _ _ _ Hh Hm). cbn zeta.
  destruct (Z.leb_spec (wrap32 interval) (LocalHandle.dt h (wrap32 t))); [|lia].
  by rewrite Htc, Hrc.
Qed.

(** The interval has expired and both conditions are true: the stored
    callback runs on the elapsed time. *)
Lemma poll_fire Tag millis interval rc tc f w h t u1 u2 u3 r u4 :
  sites w !! Tag = Some h ->
  millis (user w) = (t, u1) ->
  wrap32 interval <= LocalHandle.dt h (wrap32 t) ->
  eval tc (LocalHandle.dt h (wrap32 t)) u1 = (true, u2) ->
  eval rc (LocalHandle.dt h (wrap32 t)) u2 = (true, u3) ->
  invoke (LocalHandle.f h) (LocalHandle.dt h (wrap32 t)) u3 = (r, u4) ->
  every_if_throttled_impl Tag millis interval rc tc f w =
    (MaybeFactory.value (Some Tag) r,
     mkWorld (<[Tag := LocalHandle.reset_at h (wrap32 t)]> (sites w)) u4).
Proof.
  intros Hh Hm Hdt Htc Hrc Hf. rewrite (poll_constructed _ _ _ _ _ _ _ _ _ _ Hh Hm). cbn zeta.
  destruct (Z.leb_spec (wrap32 interval) (LocalHandle.dt h (wrap32 t))); [|lia].
  by rewrite Htc, Hrc, Hf.
Qed.

End OnePoll.

(** ** Results and handles *)

Section Results.
Context {U R : Type}.
Implicit Types (w : World U R) (h : LocalHandle.t U R) (m : Maybe.t R).

(** What a result of a poll looks like: it refers to the handle of its
    call site, which exists from then on, and it holds a payload
    exactly when it is present. *)
Lemma poll_result Tag millis interval rc tc f w :
  let '(m, w') := every_if_throttled_impl Tag millis interval rc tc f w in
  getHandle m = Some Tag /\
  is_Some (sites w' !! Tag) /\
  (if Maybe.valid m then is_Some (Maybe.value m) else Maybe.value m = None).
Proof.
  unfold every_if_throttled_impl.
  destruct (match sites w !! Tag with Some _ => _ | None => _ end) as [h u].
  destruct (call_millis millis u) as [now u1].
  destruct (wrap32 interval <=? _); cbn; [|by rewrite lookup_insert_eq].
  destruct (eval tc _ u1) as [[] u2]; cbn; [|by rewrite lookup_insert_eq].
  destruct (eval rc _ u2) as [[] u3]; cbn; [|by rewrite lookup_insert_eq].
  unfold LocalHandle.exec, RunAndReturn_run.
  destruct (invoke _ _ u3) as [r u4]; cbn. by rewrite lookup_insert_eq.
Qed.

(** [force] on an empty result whose handle exists. *)
Lemma force_empty m dt w tag h r u' :
  Maybe.valid m = false ->
  getHandle m = Some tag ->
  sites w !! tag = Some h ->
  invoke (LocalHandle.f h) (wrap32 dt) (user w) = (r, u') ->
  force m dt w = Some (r, MaybeFactory.value (Some tag) r, mkWorld (sites w) u').
Proof.
  destruct m as [hs hd bx]. unfold Maybe.valid, getHandle. cbn.
  intros -> -> Hh Hf. unfold force. cbn. rewrite Hh. cbn.
  unfold LocalHandle.exec, RunAndReturn_run. by rewrite Hf.
Qed.

(** [force] on a present result. *)
Lemma force_present m dt w v :
  Maybe.valid m = true -> Maybe.value m = Some v -> force m dt w = Some (v, m, w).
Proof. intros Hv Hb. unfold force. by rewrite Hv, Hb. Qed.

(** Whatever [force] does, the handles are as before, and so is the
    application state unless the callback ran and changed it. *)
Lemma force_frame m dt w r m' w' :
  force m dt w = Some (r, m', w') ->
  sites w' = sites w /\
  (Maybe.valid m = true -> user w' = user w) /\
  (Maybe.valid m = false ->
   exists tag h, getHandle m = Some tag /\ sites w !! tag = Some h /\
     user w' = snd (invoke (LocalHandle.f h) (wrap32 dt) (user w))).
Proof.
  unfold force. destruct (Maybe.valid m) eqn:Hv.
  - destruct (Maybe.value m); [|done]. cbn. intros [= <- <- <-]. by repeat split.
  - destruct (getHandle m) as [tag|] eqn:Htag; [|done]. cbn.
    destruct (sites w !! tag) as [h|] eqn:Hh; [|done]. cbn.
    unfold LocalHandle.exec, RunAndReturn_run.
    destruct (invoke _ _ (user w)) as [r' u'] eqn:Hf.
    cbn. intros [= <- <- <-].
    split; [done|]. split; [done|]. intros _. exists tag, h. by rewrite Hf.
Qed.

End Results.

(** ** Passes of the host loop *)

Section Loop.
Context {E R : Type}.
Implicit Types (w : World (Board E) R) (h : LocalHandle.t (Board E) R).
Implicit Types (c : Call (Board E) R) (passes : list (Z * Call (Board E) R)).

Lemma ascending_from since since' times :
  since' <= since -> ascending since times -> ascending since' times.
Proof. destruct times as [|t times]; cbn; [done|]. intros ? [? ?]. split; [lia|done]. Qed.

(** A counter that does not go back and does not wrap around stays
    within one cycle. *)
Lemma ascending_within_cycle interval times : forall since,
  ascending since times ->
  Forall (fun t => t < since + 2 ^ 32) times ->
  within_cycle interval since times.
Proof.
  induction times as [|t times IH]; intros since Hasc Hall; cbn; [done|].
  destruct Hasc as [Hle Hasc]. apply Forall_cons in Hall as [Ht Hall].
  split; [lia|]. destruct (interval <=? t - since).
  - apply IH; [done|]. eapply Forall_impl; [exact Hall|]. cbn. intros; lia.
  - apply IH; [by apply (ascending_from t)|done].
Qed.

(** What one pass can do to a timer that was started at the true time
    [since]: nothing, or restart it at the time of the pass; and it
    fires only if the interval has really elapsed. *)
Lemma pass_cases Tag c t w h since :
  sites w !! Tag = Some h ->
  LocalHandle.last h = wrap32 since ->
  since <= t ->
  let '(m, w') := poll Tag board_millis c (at_time t w) in
  exists h', sites w' !! Tag = Some h' /\
    (Maybe.valid m = false /\ h' = h \/
     LocalHandle.last h' = wrap32 t /\
     (Maybe.valid m = true -> since + wrap32 (interval_of c) <= t)).
Proof.
  intros Hh Hlast Hle.
  assert (Hdt : LocalHandle.dt h (wrap32 t) <= t - since).
  { unfold LocalHandle.dt. rewrite Hlast. by apply elapsed_le. }
  assert (Hm : board_millis (user (at_time t w)) = (t, mkBoard t (app (user w)))) by done.
  assert (Hs : sites (at_time t w) !! Tag = Some h) by done.
  destruct c as [i f|i rc f|i tc f]; cbn [poll interval_of];
    unfold every_impl, every_if_impl, throttled_impl;
    rewrite (poll_constructed _ _ _ _ _ _ _ _ _ _ Hs Hm); cbn zeta;
    destruct (Z.leb_spec (wrap32 i) (LocalHandle.dt h (wrap32 t)));
    try (exists h; split; [done|by left]).
  - cbn [eval]. destruct (invoke _ _ _) as [r u4].
    eexists. split; [apply lookup_insert_eq|]. right. split; [done|]. intros _. lia.
  - cbn [eval]. destruct (eval rc _ _) as [[] u3]; [destruct (invoke _ _ _) as [r u4]|];
      (eexists; split; [apply lookup_insert_eq|]; right; split; [done|]; intros _; lia).
  - destruct (eval tc _ _) as [[] u2]; cbn [eval].
    + destruct (invoke _ _ _) as [r u4].
      eexists. split; [apply lookup_insert_eq|]. right. split; [done|]. intros _. lia.
    + exists h. split; [done|by left].
Qed.

(** Fires are at least an interval after the start of the timer and at
    least an interval apart, whatever the policies and conditions of
    the passes, as long as time does not go back. *)
Lemma loop_fires_spaced Tag interval passes : forall w h since,
  sites w !! Tag = Some h ->
  LocalHandle.last h = wrap32 since ->
  ascending since (map fst passes) ->
  Forall (fun p => interval_of (snd p) = interval) passes ->
  let fires := fire_times (map fst passes) (map Maybe.valid (fst (loop Tag passes w))) in
  Forall (fun t => since + wrap32 interval <= t) fires /\ spaced (wrap32 interval) fires.
Proof.
  induction passes as [|[t c] passes IH]; intros w h since Hh Hlast Hasc Hint; cbn.
  { by split. }
  destruct Hasc as [Hle Hasc]. apply Forall_cons in Hint as [Hi Hint].
  cbn [fst snd] in Hi, Hle, Hasc.
  pose proof (pass_cases Tag c t w h since Hh Hlast Hle) as Hp.
  destruct (poll Tag board_millis c (at_time t w)) as [m w1].
  destruct Hp as (h' & Hh' & Hcase).
  destruct (loop Tag passes w1) as [ms w2] eqn:Hloop. cbn [fst map fire_times].
  destruct Hcase as [[Hv ->]|[Hlast' Hfire]].
  - rewrite Hv.
    specialize (IH w1 h since Hh' Hlast (ascending_from _ _ _ Hle Hasc) Hint).
    by rewrite Hloop in IH.
  - specialize (IH w1 h' t Hh' Hlast' Hasc Hint). rewrite Hloop in IH. cbn [fst] in IH.
    destruct IH as [IHf IHs].
    assert (Hlater : Forall (fun t' => since + wrap32 interval <= t')
              (fire_times (map fst passes) (map Maybe.valid ms))).
    { eapply Forall_impl; [exact IHf|]. cbn. intros; lia. }
    destruct (Maybe.valid m); [|done].
    rewrite Hi in Hfire. split.
    + apply Forall_cons. split; [by apply Hfire|done].
    + destruct (fire_times _ _) as [|t' fires] eqn:Hfires; [done|].
      split; [|done]. by apply Forall_cons in IHf as [? _].
Qed.

End Loop.

Section Passes.
Context {E R : Type}.
Implicit Types (w : World (Board E) R) (h : LocalHandle.t (Board E) R).
Implicit Types (c : Call (Board E) R) (passes : list (Z * Call (Board E) R)).

(** A pass within one cycle of the counter after the start of the
    timer sees the true elapsed time. *)
Lemma pass_dt h since t :
  LocalHandle.last h = wrap32 since ->
  since <= t < since + 2 ^ 32 ->
  LocalHandle.dt h (wrap32 t) = t - since.
Proof. intros Hlast Ht. unfold LocalHandle.dt. rewrite Hlast. by apply elapsed_exact. Qed.

(** The first pass through a call site constructs its handle with the
    time of that pass. *)
Lemma loop_first Tag t c passes w :
  sites w !! Tag = None ->
  loop Tag ((t, c) :: passes) w =
    loop Tag ((t, c) :: passes)
      (mkWorld (<[Tag := LocalHandle.mk (wrap32 t) board_millis (callback_of c)]> (sites w))
               (user w)).
Proof.
  intros Hh. cbn [loop].
  assert (Hm : board_millis (user (at_time t w)) = (t, mkBoard t (app (user w)))) by done.
  assert (Hs : sites (at_time t w) !! Tag = None) by done.
  replace (poll Tag board_millis c (at_time t w)) with
    (poll Tag board_millis c
       (at_time t (mkWorld (<[Tag := LocalHandle.mk (wrap32 t) board_millis (callback_of c)]>
                              (sites w)) (user w)))); [done|].
  destruct c as [i f|i rc f|i tc f]; cbn [poll callback_of];
    unfold every_impl, every_if_impl, throttled_impl;
    by rewrite (poll_first _ _ _ _ _ _ (at_time t w) _ _ Hs Hm).
Qed.

(** Passes before the interval has elapsed: every result is empty and
    neither the timer nor the application changes. *)
Lemma loop_not_due Tag interval passes : forall w h since,
  sites w !! Tag = Some h ->
  LocalHandle.last h = wrap32 since ->
  Forall (fun p => since <= fst p < since + wrap32 interval /\
                   interval_of (snd p) = interval) passes ->
  let '(ms, w') := loop Tag passes w in
  ms = replicate (length passes) (MaybeFactory.empty (Some Tag)) /\
  sites w' = sites w /\ app (user w') = app (user w).
Proof.
  induction passes as [|[t c] passes IH]; intros w h since Hh Hlast Hall; cbn.
  { done. }
  apply Forall_cons in Hall as [[Ht Hi] Hall]. cbn [fst snd] in Ht, Hi.
  pose proof (wrap32_range interval) as Hr.
  assert (Hdt : LocalHandle.dt h (wrap32 t) < wrap32 interval).
  { rewrite (pass_dt h since t Hlast); lia. }
  assert (Hm : board_millis (user (at_time t w)) = (t, mkBoard t (app (user w)))) by done.
  assert (Hs : sites (at_time t w) !! Tag = Some h) by done.
  assert (Hp : poll Tag board_millis c (at_time t w) =
               (MaybeFactory.empty (Some Tag), at_time t w)).
  { subst interval.
    destruct c as [i f|i rc f|i tc f]; cbn [poll interval_of] in *;
      unfold every_impl, every_if_impl, throttled_impl;
      by rewrite (poll_not_due _ _ _ _ _ _ _ _ _ _ Hs Hm Hdt). }
  rewrite Hp. specialize (IH (at_time t w) h since Hs Hlast Hall).
  destruct (loop Tag passes (at_time t w)) as [ms w'].
  destruct IH as (-> & -> & ->). done.
Qed.

Lemma poll_eq {U} Tag (millis : MillisFunc U) (c : Call U R) :
  poll Tag millis c =
    every_if_throttled_impl Tag millis (interval_of c) (runCondition_of c)
      (throttleCondition_of c) (callback_of c).
Proof. by destruct c. Qed.

(** A pass through a constructed call site, within one cycle of the
    counter after the start of the timer. *)
Lemma pass_constructed Tag c t w h since :
  sites w !! Tag = Some h ->
  LocalHandle.last h = wrap32 since ->
  since <= t < since + 2 ^ 32 ->
  poll Tag board_millis c (at_time t w) =
    let dt := t - since in
    if wrap32 (interval_of c) <=? dt then
      let '(throttle, u2) := eval (throttleCondition_of c) dt (mkBoard t (app (user w))) in
      if throttle then
        let '(run, u3) := eval (runCondition_of c) dt u2 in
        let sites' := <[Tag := LocalHandle.reset_at h (wrap32 t)]> (sites w) in
        if run then
          let '(r, u4) := invoke (LocalHandle.f h) dt u3 in
          (MaybeFactory.value (Some Tag) r, mkWorld sites' u4)
        else (MaybeFactory.empty (Some Tag), mkWorld sites' u3)
      else (MaybeFactory.empty (Some Tag), mkWorld (sites w) u2)
    else (MaybeFactory.empty (Some Tag), at_time t w).
Proof.
  intros Hh Hlast Ht.
  assert (Hm : board_millis (user (at_time t w)) = (t, mkBoard t (app (user w)))) by done.
  assert (Hs : sites (at_time t w) !! Tag = Some h) by done.
  rewrite poll_eq, (poll_constructed _ _ _ _ _ _ _ _ _ _ Hs Hm). cbn zeta.
  by rewrite (pass_dt h since t Hlast Ht).
Qed.

(** Passes of the throttled policy after the interval has elapsed, as
    long as the condition comes out false: every result is empty, the
    timer is as it was, and the application is in the state in which
    the evaluations of the condition, one per pass, leave it. *)
Lemma loop_stalled Tag interval passes : forall w h since,
  sites w !! Tag = Some h ->
  LocalHandle.last h = wrap32 since ->
  Forall (fun p => since + wrap32 interval <= fst p < since + 2 ^ 32 /\
                   exists tc f, snd p = exec_throttled interval tc f) passes ->
  Forall (eq false) (fst (conditions_run since passes (app (user w)))) ->
  let '(ms, w') := loop Tag passes w in
  ms = replicate (length passes) (MaybeFactory.empty (Some Tag)) /\
  sites w' = sites w /\
  app (user w') = snd (conditions_run since passes (app (user w))).
Proof.
  induction passes as [|[t c] passes IH]; intros w h since Hh Hlast Hall Hfalse; cbn.
  { done. }
  apply Forall_cons in Hall as [[Ht (tc & f & Hc)] Hall]. cbn [fst snd] in Ht, Hc.
  subst c. pose proof (wrap32_range interval) as Hr.
  rewrite (pass_constructed Tag _ t w h since Hh Hlast) by lia.
  cbn [interval_of throttleCondition_of runCondition_of] in *. cbn zeta.
  destruct (Z.leb_spec (wrap32 interval) (t - since)); [|lia].
  cbn [conditions_run condition_of] in Hfalse |- *.
  destruct (eval tc (t - since) (mkBoard t (app (user w)))) as [b u2].
  specialize (IH (mkWorld (sites w) u2) h since Hh Hlast Hall). cbn [user] in IH.
  destruct (conditions_run since passes (app u2)) as [bs e'].
  cbn [fst snd] in *. apply Forall_cons in Hfalse as [<- Hfalse].
  specialize (IH Hfalse).
  destruct (loop Tag passes (mkWorld (sites w) u2)) as [ms w'].
  destruct IH as (-> & -> & ->). done.
Qed.

(** The unconditional policy fires as its schedule says. *)
Lemma loop_every_schedule Tag interval passes : forall w h since,
  sites w !! Tag = Some h ->
  LocalHandle.last h = wrap32 since ->
  within_cycle (wrap32 interval) since (map fst passes) ->
  Forall (fun p => exists f, snd p = exec_every interval f) passes ->
  map Maybe.valid (fst (loop Tag passes w)) =
    schedule (wrap32 interval) since (map fst passes).
Proof.
  induction passes as [|[t c] passes IH]; intros w h since Hh Hlast Hcyc Hall; cbn.
  { done. }
  destruct Hcyc as [Ht Hcyc]. apply Forall_cons in Hall as [(f & Hc) Hall].
  cbn [fst snd] in Ht, Hcyc, Hc. subst c.
  rewrite (pass_constructed Tag _ t w h since Hh Hlast Ht).
  cbn [interval_of throttleCondition_of runCondition_of eval]. cbn zeta.
  destruct (Z.leb_spec (wrap32 interval) (t - since)).
  - destruct (invoke _ _ _) as [r u4].
    match goal with |- context [loop Tag passes ?w1] =>
      specialize (IH w1 (LocalHandle.reset_at h (wrap32 t)) t) end.
    cbn [sites] in IH. rewrite lookup_insert_eq in IH.
    specialize (IH eq_refl eq_refl Hcyc Hall).
    destruct (loop Tag passes _) as [ms w']. cbn in *. by rewrite IH.
  - specialize (IH (at_time t w) h since Hh Hlast Hcyc Hall).
    destruct (loop Tag passes _) as [ms w']. cbn in *. by rewrite IH.
Qed.

End Passes.

Section Started.
Context {E R : Type}.
Implicit Types (w : World (Board E) R) (passes : list (Z * Call (Board E) R)).

(** Passes over a running timer are passes over a constructed call
    site. *)
Lemma loop_started Tag since passes w :
  timer_since Tag since passes w ->
  exists w0 h,
    loop Tag passes w = loop Tag passes w0 /\
    sites w0 !! Tag = Some h /\ LocalHandle.last h = wrap32 since.
Proof.
  unfold timer_since. destruct (sites w !! Tag) as [h|] eqn:Hh.
  - intros Hlast. by exists w, h.
  - destruct passes as [|[t c] passes]; [done|]. cbn. intros [= ->].
    eexists _, _. split; [by apply loop_first|]. cbn. by rewrite lookup_insert_eq.
Qed.

(** Two boards with the same handles decide the same way at a pass whose
    condition, if any, is a plain value: whether a poll fires, and what
    it does to the timer, does not depend on the state of the
    application. *)
Lemma pass_decision_same Tag t (c : Call (Board E) R) w w' :
  sites w' = sites w ->
  (exists b, condition_of c = CondBool b) ->
  Maybe.valid (fst (poll Tag board_millis c (at_time t w'))) =
  Maybe.valid (fst (poll Tag board_millis c (at_time t w))) /\
  sites (snd (poll Tag board_millis c (at_time t w'))) =
  sites (snd (poll Tag board_millis c (at_time t w))).
Proof.
  intros Hs [b Hb].
  destruct c as [i f|i rc f|i tc f]; cbn in Hb; try subst rc; try subst tc;
    cbn [poll]; unfold every_impl, every_if_impl, throttled_impl;
    unfold every_if_throttled_impl, LocalHandle.ctor, call_millis;
    cbn [at_time sites user board_millis]; rewrite Hs;
    destruct (sites w !! Tag) as [h|]; cbn zeta;
    destruct (wrap32 i <=? _); cbn [eval fst snd sites]; try done;
    try (destruct b; cbn [fst snd sites]; try done);
    unfold LocalHandle.exec, RunAndReturn_run;
    by destruct (invoke _ _ _), (invoke _ _ _).
Qed.

Lemma loop_decisions_same Tag passes : forall w w',
  sites w' = sites w ->
  Forall (fun p => exists b, condition_of (snd p) = CondBool b) passes ->
  map Maybe.valid (fst (loop Tag passes w')) =
  map Maybe.valid (fst (loop Tag passes w)).
Proof.
  induction passes as [|[t c] passes IH]; intros w w' Hs Hall; cbn; [done|].
  apply Forall_cons in Hall as [Hc Hall]. cbn [snd] in Hc.
  destruct (pass_decision_same Tag t c w w' Hs Hc) as [Hv Hs1].
  destruct (poll Tag board_millis c (at_time t w')) as [m' w1'].
  destruct (poll Tag board_millis c (at_time t w)) as [m w1].
  cbn [fst snd] in Hv, Hs1. specialize (IH w1 w1' Hs1 Hall).
  destruct (loop Tag passes w1') as [ms' w2'], (loop Tag passes w1) as [ms w2].
  cbn in *. by rewrite Hv, IH.
Qed.

End Started.

(** * The specified behaviour *)

(** The next pass of the loop in the goal, through the call site whose
    handle [h] was last restarted at [since]. *)
Ltac pass_of h since t :=
  rewrite (pass_constructed _ _ t _ h since); [|apply lookup_insert_eq|done|lia];
  cbn [interval_of throttleCondition_of runCondition_of eval]; cbn zeta.

(** C1, as stated, fails: when the poll at t=500 is the first poll of the
    call site, the timer starts at 500, so the poll at t=1000 is empty,
    the poll at t=1500 fires with dt=1000 and the poll at t=2000 is
    empty. *)
Lemma every_1000_first_poll_at_500 :
  let results :=
    fst (loop 0 (passes_at (exec_every 1000 report_dt) [500; 1000; 1500; 2000])
           (power_on tt)) in
  map Maybe.value results = [None; None; Some 1000; None] /\
  map Maybe.value results <> [None; Some 1000; None; Some 1000].
Proof. vm_compute. split; [reflexivity|discriminate]. Qed.

(** C1 (amended): with interval=1000 and the call site first reached at
    clock reading 0 (that poll constructs the timer and is empty), the
    poll at t=500 is empty, the poll at t=1000 fires with dt=1000, the
    poll at t=1500 is empty and the poll at t=2000 fires with dt=1000. *)
Theorem every_1000_scenario {E R} (Tag : nat) (f : Callback (Board E) R)
    (w : World (Board E) R) :
  sites w !! Tag = None ->
  let '(r1, b1) := invoke f 1000 (mkBoard 1000 (app (user w))) in
  let '(r2, b2) := invoke f 1000 (mkBoard 2000 (app b1)) in
  fst (loop Tag (passes_at (exec_every 1000 f) [0; 500; 1000; 1500; 2000]) w) =
    [MaybeFactory.empty (Some Tag); MaybeFactory.empty (Some Tag);
     MaybeFactory.value (Some Tag) r1; MaybeFactory.empty (Some Tag);
     MaybeFactory.value (Some Tag) r2].
Proof.
  intros Hnone.
  destruct (invoke f 1000 (mkBoard 1000 (app (user w)))) as [r1 b1] eqn:Hf1.
  destruct (invoke f 1000 (mkBoard 2000 (app b1))) as [r2 b2] eqn:Hf2.
  unfold passes_at. cbn [map]. rewrite (loop_first _ _ _ _ _ Hnone).
  cbn [loop callback_of].
  set (h0 := LocalHandle.mk (wrap32 0) board_millis f).
  pass_of h0 0 0. change (wrap32 1000 <=? 0 - 0) with false. cbn iota.
  pass_of h0 0 500. change (wrap32 1000 <=? 500 - 0) with false. cbn iota.
  pass_of h0 0 1000. change (wrap32 1000 <=? 1000 - 0) with true. cbn iota.
  change (1000 - 0) with 1000. cbn [at_time user app]. change (LocalHandle.f h0) with f.
  rewrite Hf1.
  set (h1 := LocalHandle.reset_at h0 (wrap32 1000)).
  pass_of h1 1000 1500. change (wrap32 1000 <=? 1500 - 1000) with false. cbn iota.
  pass_of h1 1000 2000. change (wrap32 1000 <=? 2000 - 1000) with true. cbn iota.
  change (2000 - 1000) with 1000. cbn [at_time user app]. change (LocalHandle.f h1) with f.
  by rewrite Hf2.
Qed.

Lemma every_1000_scenario_witness :
  sites (power_on (R := Z) tt) !! 0%nat = None /\
  fst (loop 0 (passes_at (exec_every 1000 report_dt) [0; 500; 1000; 1500; 2000])
         (power_on tt)) =
    [MaybeFactory.empty (Some 0%nat); MaybeFactory.empty (Some 0%nat);
     MaybeFactory.value (Some 0%nat) 1000; MaybeFactory.empty (Some 0%nat);
     MaybeFactory.value (Some 0%nat) 1000].
Proof.
  split; [reflexivity|].
  exact (every_1000_scenario 0 report_dt (power_on tt) eq_refl).
Defined.

(** C2: in the throttled policy, a poll at which the interval has elapsed
    and the condition is false returns an empty result and leaves the
    timer as it was; the condition is evaluated again at every later
    poll (once per poll, and nothing else runs), and the first poll at
    which it is true fires, on the whole time elapsed since the timer
    started, without waiting for another interval. *)
Theorem throttled_waits_without_reset {E R} (Tag : nat) (interval : Z)
    (w : World (Board E) R) (h : LocalHandle.t (Board E) R) (since : Z)
    (stalled : list (Z * Call (Board E) R)) (t : Z)
    (c : Condition (Board E)) (f : Callback (Board E) R) :
  sites w !! Tag = Some h ->
  LocalHandle.last h = wrap32 since ->
  Forall (fun p => since + wrap32 interval <= fst p < since + 2 ^ 32 /\
                   exists tc f, snd p = exec_throttled interval tc f) stalled ->
  Forall (eq false) (fst (conditions_run since stalled (app (user w)))) ->
  since + wrap32 interval <= t < since + 2 ^ 32 ->
  let '(ms, w1) := loop Tag stalled w in
  let '(b, u2) := eval c (t - since) (mkBoard t (app (user w1))) in
  let '(r, u3) := invoke (LocalHandle.f h) (t - since) u2 in
  ms = replicate (length stalled) (MaybeFactory.empty (Some Tag)) /\
  sites w1 = sites w /\
  app (user w1) = snd (conditions_run since stalled (app (user w))) /\
  poll Tag board_millis (exec_throttled interval c f) (at_time t w1) =
    if b
    then (MaybeFactory.value (Some Tag) r,
          mkWorld (<[Tag := LocalHandle.reset_at h (wrap32 t)]> (sites w)) u3)
    else (MaybeFactory.empty (Some Tag), mkWorld (sites w) u2).
Proof.
  intros Hh Hlast Hall Hfalse Ht.
  pose proof (loop_stalled Tag interval stalled w h since Hh Hlast Hall Hfalse) as Hl.
  destruct (loop Tag stalled w) as [ms w1]. destruct Hl as (Hms & Hs & Happ).
  destruct (eval c _ _) as [b u2] eqn:Hc.
  destruct (invoke _ _ u2) as [r u3] eqn:Hf.
  repeat split; try done.
  rewrite <- Hs in Hh. pose proof (wrap32_range interval) as Hr.
  rewrite (pass_constructed Tag _ t w1 h since Hh Hlast) by lia.
  cbn [interval_of throttleCondition_of runCondition_of eval]. cbn zeta.
  destruct (Z.leb_spec (wrap32 interval) (t - since)); [|lia].
  rewrite Hc. destruct b; [|by rewrite Hs]. by rewrite Hf, Hs.
Qed.

Lemma throttled_waits_without_reset_witness :
  let call := exec_throttled 500 (ready_from 1200) report_dt in
  let w := started 0 0 report_dt tt in
  let stalled := passes_at call [500; 800] in
  fst (loop 0 stalled w) = [MaybeFactory.empty (Some 0%nat); MaybeFactory.empty (Some 0%nat)] /\
  sites (snd (loop 0 stalled w)) = sites w /\
  poll 0 board_millis call (at_time 1200 (snd (loop 0 stalled w))) =
    (MaybeFactory.value (Some 0%nat) 1200,
     mkWorld (<[0%nat := LocalHandle.mk 1200 board_millis report_dt]> (sites w))
             (mkBoard 1200 tt)).
Proof.
  intros call w stalled.
  assert (Hall : Forall (fun p => 0 + wrap32 500 <= fst p < 0 + 2 ^ 32 /\
                   exists tc f, snd p = exec_throttled 500 tc f) stalled).
  { repeat constructor; cbn; try (vm_compute; congruence); by eexists _, _. }
  assert (Hfalse : Forall (eq false) (fst (conditions_run 0 stalled (app (user w))))).
  { repeat constructor. }
  assert (Ht : 0 + wrap32 500 <= 1200 < 0 + 2 ^ 32) by (vm_compute; split; congruence).
  pose proof (throttled_waits_without_reset 0 500 w
                (LocalHandle.mk (wrap32 0) board_millis report_dt) 0 stalled 1200
                (ready_from 1200) report_dt eq_refl eq_refl Hall Hfalse Ht) as H.
  destruct H as (H1 & H2 & _ & H4). split; [exact H1|]. split; [exact H2|exact H4].
Defined.

(** C3: in the conditional-at-deadline policy, a poll at which the
    interval has elapsed restarts the timer at the time of the poll,
    whatever the run condition says; when the condition is false the
    callback does not run and the result is empty. After such a poll no
    poll fires (nor evaluates anything) before a full interval has
    passed again, and a poll a full interval later is at the next
    deadline. *)
Theorem every_if_resets_at_deadline {E R} (Tag : nat) (interval : Z)
    (w : World (Board E) R) (h : LocalHandle.t (Board E) R) (since t : Z)
    (c : Condition (Board E)) (f : Callback (Board E) R) :
  sites w !! Tag = Some h ->
  LocalHandle.last h = wrap32 since ->
  since + wrap32 interval <= t < since + 2 ^ 32 ->
  let '(b, u2) := eval c (t - since) (mkBoard t (app (user w))) in
  let '(r, u3) := invoke (LocalHandle.f h) (t - since) u2 in
  let w1 := mkWorld (<[Tag := LocalHandle.reset_at h (wrap32 t)]> (sites w))
                    (if b then u3 else u2) in
  poll Tag board_millis (exec_every_if interval c f) (at_time t w) =
    (if b then MaybeFactory.value (Some Tag) r else MaybeFactory.empty (Some Tag), w1) /\
  (forall passes,
     Forall (fun p => t <= fst p < t + wrap32 interval /\
                      interval_of (snd p) = interval) passes ->
     let '(ms, w2) := loop Tag passes w1 in
     ms = replicate (length passes) (MaybeFactory.empty (Some Tag)) /\
     sites w2 = sites w1 /\ app (user w2) = app (user w1)) /\
  (forall c' f',
     let t' := t + wrap32 interval in
     let '(b', u') := eval c' (wrap32 interval) (mkBoard t' (app (user w1))) in
     fst (poll Tag board_millis (exec_every_if interval c' f') (at_time t' w1)) =
       if b'
       then MaybeFactory.value (Some Tag)
              (fst (invoke (LocalHandle.f h) (wrap32 interval) u'))
       else MaybeFactory.empty (Some Tag)).
Proof.
  intros Hh Hlast Ht. pose proof (wrap32_range interval) as Hr.
  destruct (eval c _ _) as [b u2] eqn:Hc.
  destruct (invoke _ _ u2) as [r u3] eqn:Hf.
  set (h1 := LocalHandle.reset_at h (wrap32 t)).
  set (w1 := mkWorld _ _).
  assert (Hh1 : sites w1 !! Tag = Some h1) by apply lookup_insert_eq.
  split; [|split].
  - rewrite (pass_constructed Tag _ t w h since Hh Hlast) by lia.
    cbn [interval_of throttleCondition_of runCondition_of eval]. cbn zeta.
    destruct (Z.leb_spec (wrap32 interval) (t - since)); [|lia].
    rewrite Hc. destruct b; [by rewrite Hf|done].
  - intros passes Hall. by apply (loop_not_due Tag interval passes w1 h1 t).
  - intros c' f'. cbn zeta.
    rewrite (pass_constructed Tag _ _ w1 h1 t Hh1 eq_refl) by lia.
    cbn [interval_of throttleCondition_of runCondition_of eval]. cbn zeta.
    replace (t + wrap32 interval - t) with (wrap32 interval) by lia.
    rewrite Z.leb_refl.
    destruct (eval c' _ _) as [[] u']; [|done].
    cbn [h1 LocalHandle.f LocalHandle.reset_at]. by destruct (invoke _ _ u').
Qed.

Lemma every_if_resets_at_deadline_witness :
  let w := started 0 0 report_dt tt in
  let w1 := mkWorld (<[0%nat := LocalHandle.mk 1000 board_millis report_dt]> (sites w))
                    (mkBoard 1000 tt) in
  poll 0 board_millis (exec_every_if 1000 (CondBool false) report_dt) (at_time 1000 w) =
    (MaybeFactory.empty (Some 0%nat), w1) /\
  fst (loop 0 (passes_at (exec_every_if 1000 (CondBool true) report_dt) [1000; 1500; 1999]) w1) =
    replicate 3 (MaybeFactory.empty (Some 0%nat)) /\
  fst (poll 0 board_millis (exec_every_if 1000 (CondBool true) report_dt) (at_time 2000 w1)) =
    MaybeFactory.value (Some 0%nat) 1000.
Proof.
  intros w w1.
  assert (Ht : 0 + wrap32 1000 <= 1000 < 0 + 2 ^ 32) by (vm_compute; split; congruence).
  pose proof (every_if_resets_at_deadline 0 1000 w
                (LocalHandle.mk (wrap32 0) board_millis report_dt) 0 1000
                (CondBool false) report_dt eq_refl eq_refl Ht) as H.
  destruct H as (H1 & H2 & H3). split; [exact H1|]. split.
  - assert (Hall : Forall (fun p => 1000 <= fst p < 1000 + wrap32 1000 /\
                      interval_of (snd p) = 1000)
             (passes_at (exec_every_if 1000 (CondBool true) report_dt) [1000; 1500; 1999])).
    { repeat constructor; cbn; vm_compute; congruence. }
    exact (proj1 (H2 _ Hall)).
  - exact (H3 (CondBool true) report_dt).
Defined.

(** C4: [force()] on an empty result runs the stored callback of the
    call site at once, whatever the timer and without any condition,
    makes the result present with the value computed, and returns that
    value; on a present result it runs nothing and returns the payload,
    leaving the result and the program state as they are. On the result
    of a poll it always succeeds. *)
Theorem force_runs_or_returns {U R} (m : Maybe.t R) (dt : Z) (w : World U R) :
  (forall tag h,
     Maybe.valid m = false ->
     getHandle m = Some tag ->
     sites w !! tag = Some h ->
     let '(r, u') := invoke (LocalHandle.f h) (wrap32 dt) (user w) in
     force m dt w = Some (r, MaybeFactory.value (Some tag) r, mkWorld (sites w) u')) /\
  (forall v,
     Maybe.valid m = true ->
     Maybe.value m = Some v ->
     force m dt w = Some (v, m, w)) /\
  (forall Tag millis interval rc tc f w0,
     every_if_throttled_impl Tag millis interval rc tc f w0 = (m, w) ->
     exists r m' w',
       force m dt w = Some (r, m', w') /\
       Maybe.valid m' = true /\ Maybe.value m' = Some r).
Proof.
  split; [|split].
  - intros tag h Hv Htag Hh.
    destruct (invoke _ _ _) as [r u'] eqn:Hf. by apply (force_empty m dt w tag h).
  - intros v. apply force_present.
  - intros Tag millis interval rc tc f w0 Hpoll.
    pose proof (poll_result Tag millis interval rc tc f w0) as Hres.
    rewrite Hpoll in Hres. destruct Hres as (Htag & [h Hh] & Hbox).
    destruct (Maybe.valid m) eqn:Hv.
    + destruct Hbox as [v Hval]. exists v, m, w. by rewrite (force_present m dt w v).
    + destruct (invoke (LocalHandle.f h) (wrap32 dt) (user w)) as [r u'] eqn:Hf.
      eexists _, _, _. split; [by apply (force_empty m dt w Tag h)|done].
Qed.

Lemma force_runs_or_returns_witness :
  let w := started 0 0 report_dt tt in
  force (MaybeFactory.empty (Some 0%nat)) 7 w =
    Some (7, MaybeFactory.value (Some 0%nat) 7, w) /\
  force (MaybeFactory.value (Some 0%nat) 42) 7 w =
    Some (42, MaybeFactory.value (Some 0%nat) 42, w).
Proof.
  intros w. split.
  - exact (proj1 (force_runs_or_returns (MaybeFactory.empty (Some 0%nat)) 7 w)
             0%nat (LocalHandle.mk (wrap32 0) board_millis report_dt)
             eq_refl eq_refl eq_refl).
  - exact (proj1 (proj2 (force_runs_or_returns (MaybeFactory.value (Some 0%nat) 42) 7 w))
             42 eq_refl eq_refl).
Defined.

(** C5: [reset(handle)] at the time [t] sets the timer of the call site
    to the clock reading of that moment, and every poll of the call site
    from then until [t + interval], whatever its policy and conditions,
    returns an empty result and runs neither the callback nor a
    condition. *)
Theorem reset_restarts_interval {E R} (Tag : nat) (interval : Z)
    (w : World (Board E) R) (h : LocalHandle.t (Board E) R) (t : Z)
    (passes : list (Z * Call (Board E) R)) :
  sites w !! Tag = Some h ->
  LocalHandle.millis h = board_millis ->
  Forall (fun p => t <= fst p < t + wrap32 interval /\
                   interval_of (snd p) = interval) passes ->
  let w1 := reset (Some Tag) (at_time t w) in
  sites w1 = <[Tag := LocalHandle.reset_at h (wrap32 t)]> (sites w) /\
  user w1 = mkBoard t (app (user w)) /\
  let '(ms, w2) := loop Tag passes w1 in
  ms = replicate (length passes) (MaybeFactory.empty (Some Tag)) /\
  sites w2 = sites w1 /\ app (user w2) = app (user w).
Proof.
  intros Hh Hmillis Hall. cbn zeta.
  assert (Hw1 : reset (Some Tag) (at_time t w) =
                mkWorld (<[Tag := LocalHandle.reset_at h (wrap32 t)]> (sites w))
                        (mkBoard t (app (user w)))).
  { unfold reset. cbn [sites at_time]. rewrite Hh.
    unfold LocalHandle.reset, call_millis. by rewrite Hmillis. }
  rewrite Hw1. split; [done|]. split; [done|].
  match goal with |- context [loop Tag passes ?w1] =>
    pose proof (loop_not_due Tag interval passes w1
                  (LocalHandle.reset_at h (wrap32 t)) t
                  (lookup_insert_eq _ _ _) eq_refl Hall) as Hl end.
  by destruct (loop Tag passes _) as [ms w2].
Qed.

Lemma reset_restarts_interval_witness :
  let w := started 0 0 report_dt tt in
  let w1 := reset (Some 0%nat) (at_time 700 w) in
  sites w1 = <[0%nat := LocalHandle.mk 700 board_millis report_dt]> (sites w) /\
  fst (loop 0 (passes_at (exec_every 1000 report_dt) [700; 1000; 1699]) w1) =
    replicate 3 (MaybeFactory.empty (Some 0%nat)).
Proof.
  intros w w1.
  assert (Hall : Forall (fun p => 700 <= fst p < 700 + wrap32 1000 /\
                    interval_of (snd p) = 1000)
           (passes_at (exec_every 1000 report_dt) [700; 1000; 1699])).
  { repeat constructor; cbn; vm_compute; congruence. }
  pose proof (reset_restarts_interval 0 1000 w
                (LocalHandle.mk (wrap32 0) board_millis report_dt) 700 _
                eq_refl eq_refl Hall) as H.
  destruct H as (H1 & _ & H3). split; [exact H1|exact (proj1 H3)].
Defined.

(** C6: under the unconditional policy a poll fires if and only if the
    time elapsed since the last fire, or since the start of the timer,
    is at least the interval: the polls fire as [schedule] says, as long
    as the counter does not run through a full cycle between a restart
    of the timer and a poll, and so in particular for a counter that
    does not go back and does not wrap around. For any clock that does
    not go back, no fire is less than an interval after the start of the
    timer or after the previous fire. *)
Theorem every_fires_on_schedule {E R} (Tag : nat) (interval since : Z)
    (passes : list (Z * Call (Board E) R)) (w : World (Board E) R) :
  timer_since Tag since passes w ->
  Forall (fun p => exists f, snd p = exec_every interval f) passes ->
  let times := map fst passes in
  let fired := map Maybe.valid (fst (loop Tag passes w)) in
  (within_cycle (wrap32 interval) since times ->
   fired = schedule (wrap32 interval) since times) /\
  (ascending since times ->
   Forall (fun t => t < since + 2 ^ 32) times ->
   fired = schedule (wrap32 interval) since times) /\
  (ascending since times ->
   Forall (fun t => since + wrap32 interval <= t) (fire_times times fired) /\
   spaced (wrap32 interval) (fire_times times fired)).
Proof.
  intros Hsince Hall. cbn zeta.
  destruct (loop_started Tag since passes w Hsince) as (w0 & h & -> & Hh & Hlast).
  assert (Hsched : within_cycle (wrap32 interval) since (map fst passes) ->
                   map Maybe.valid (fst (loop Tag passes w0)) =
                   schedule (wrap32 interval) since (map fst passes)).
  { intros Hcyc. by apply (loop_every_schedule Tag interval passes w0 h since). }
  split; [done|]. split.
  - intros Hasc Hbound. by apply Hsched, ascending_within_cycle.
  - intros Hasc. apply (loop_fires_spaced Tag interval passes w0 h since); try done.
    eapply Forall_impl; [exact Hall|]. by intros [t c] [f ->].
Qed.

Lemma every_fires_on_schedule_witness :
  let times := [0; 500; 1000; 1500; 2000; 2100; 3500] in
  let fired :=
    map Maybe.valid
      (fst (loop 0 (passes_at (exec_every 1000 report_dt) times) (power_on tt))) in
  fired = [false; false; true; false; true; false; true] /\
  fired = schedule 1000 0 times /\
  spaced 1000 (fire_times times fired).
Proof.
  intros times fired.
  assert (Hsince : timer_since 0 0 (passes_at (exec_every 1000 report_dt) times)
                     (power_on (R := Z) tt)) by reflexivity.
  assert (Hall : Forall (fun p => exists f, snd p = exec_every (U := Board unit) 1000 f)
                   (passes_at (exec_every 1000 report_dt) times)).
  { repeat constructor; by eexists. }
  assert (Hcyc : within_cycle (wrap32 1000) 0 times).
  { repeat split; vm_compute; congruence. }
  assert (Hasc : ascending 0 times).
  { repeat split; vm_compute; congruence. }
  assert (Hbound : Forall (fun t => t < 0 + 2 ^ 32) times).
  { repeat constructor. }
  pose proof (every_fires_on_schedule 0 1000 0 _ _ Hsince Hall) as (H1 & H2 & H3).
  split; [exact (H1 Hcyc)|]. split; [exact (H2 Hasc Hbound)|exact (proj2 (H3 Hasc))].
Defined.

(** C7: the elapsed time is the difference [now - last] of unsigned
    32-bit arithmetic, and it is the true elapsed time whenever less
    than one full cycle of the counter has passed since the timer was
    set, also when the counter has wrapped around in between; this is
    the value a firing poll hands to the callback. *)
Theorem dt_wrap_safe {E R} (Tag : nat) (h : LocalHandle.t (Board E) R) (since t : Z)
    (w : World (Board E) R) (interval : Z) (f : Callback (Board E) R) :
  LocalHandle.last h = wrap32 since ->
  since <= t < since + 2 ^ 32 ->
  LocalHandle.dt h (wrap32 t) = (wrap32 t - LocalHandle.last h) mod 2 ^ 32 /\
  LocalHandle.dt h (wrap32 t) = t - since /\
  (sites w !! Tag = Some h ->
   wrap32 interval <= t - since ->
   fst (poll Tag board_millis (exec_every interval f) (at_time t w)) =
     MaybeFactory.value (Some Tag)
       (fst (invoke (LocalHandle.f h) (t - since) (mkBoard t (app (user w)))))).
Proof.
  intros Hlast Ht. split; [done|]. split; [by apply pass_dt|].
  intros Hh Hi. rewrite (pass_constructed Tag _ t w h since Hh Hlast Ht).
  cbn [interval_of throttleCondition_of runCondition_of eval]. cbn zeta.
  destruct (Z.leb_spec (wrap32 interval) (t - since)); [|lia].
  by destruct (invoke _ _ _).
Qed.

Lemma dt_wrap_safe_witness :
  let h := LocalHandle.mk 4294967196 board_millis report_dt in
  LocalHandle.dt h 50 = 150 /\
  fst (poll 0 board_millis (exec_every 100 report_dt)
         (at_time (2 ^ 32 + 50) (started 0 (2 ^ 32 - 100) report_dt tt))) =
    MaybeFactory.value (Some 0%nat) 150.
Proof.
  intros h.
  assert (Ht : 2 ^ 32 - 100 <= 2 ^ 32 + 50 < 2 ^ 32 - 100 + 2 ^ 32)
    by (vm_compute; split; congruence).
  pose proof (dt_wrap_safe 0 h (2 ^ 32 - 100) (2 ^ 32 + 50)
                (started 0 (2 ^ 32 - 100) report_dt tt) 100 report_dt eq_refl Ht)
    as (_ & H2 & H3).
  split; [exact H2|].
  apply H3; [reflexivity|vm_compute; congruence].
Defined.

(** C8, as stated, fails for [Maybe<void>]: its move constructor is the
    defaulted one, which copies the flag and leaves the source as it is,
    so a present source is still [valid()] after the move. *)
Lemma moved_from_void_stays_valid :
  let source := MaybeFactory.voidValue (Some 0%nat) in
  MaybeVoid.valid (snd (MaybeVoid.move_ctor source)) = true /\
  MaybeVoid.valid (snd (MaybeVoid.move_ctor source)) <> false.
Proof. split; [reflexivity|discriminate]. Qed.

(** C8 (amended): for every result type other than [void], move
    construction from a [Maybe<T>], and move assignment from a
    [Maybe<T>] that is another object, give the destination the flag,
    the handle and the payload of the source and leave the source empty;
    move assignment of an object to itself changes nothing. For
    [Maybe<void>] the defaulted move operations give the destination the
    flag and the handle of the source and leave the source as it was. *)
Theorem move_transfers_and_empties {R} :
  (forall other : Maybe.t R,
     let '(new, other') := Maybe.move_ctor other in
     Maybe.valid new = Maybe.valid other /\
     getHandle new = getHandle other /\
     (Maybe.valid other = true -> Maybe.value new = Maybe.value other) /\
     Maybe.valid other' = false) /\
  (forall (this other : nat) (mem : gmap nat (Maybe.t R)) a b,
     this <> other ->
     mem !! this = Some a ->
     mem !! other = Some b ->
     exists mem' a' b',
       Maybe.move_assign this other mem = Some mem' /\
       mem' !! this = Some a' /\ mem' !! other = Some b' /\
       Maybe.valid a' = Maybe.valid b /\
       getHandle a' = getHandle b /\
       (Maybe.valid b = true -> Maybe.value a' = Maybe.value b) /\
       Maybe.valid b' = false) /\
  (forall (this : nat) (mem : gmap nat (Maybe.t R)) a,
     mem !! this = Some a -> Maybe.move_assign this this mem = Some mem) /\
  (forall other : MaybeVoid.t,
     let '(new, other') := MaybeVoid.move_ctor other in
     MaybeVoid.valid new = MaybeVoid.valid other /\
     MaybeVoid.handle new = MaybeVoid.handle other /\
     other' = other) /\
  (forall (this other : nat) (mem : gmap nat MaybeVoid.t) a b,
     mem !! this = Some a ->
     mem !! other = Some b ->
     exists mem',
       MaybeVoid.move_assign this other mem = Some mem' /\
       mem' !! this = Some b /\ mem' !! other = Some b).
Proof.
  split; [|split; [|split; [|split]]].
  - by intros [[] hd bx].
  - intros this other mem a b Hne Ha Hb.
    unfold Maybe.move_assign. rewrite decide_False by done. rewrite Ha, Hb. cbn.
    eexists _, _, _. split; [done|].
    rewrite lookup_insert_eq, lookup_insert_ne, lookup_insert_eq by done.
    do 2 (split; [done|]).
    destruct a as [[] ha ba], b as [[] hb bb]; done.
  - intros this mem a Ha. unfold Maybe.move_assign.
    rewrite decide_True by done. by rewrite Ha.
  - by intros [hs hd].
  - intros this other mem [ha hda] [hb hdb] Ha Hb.
    unfold MaybeVoid.move_assign. rewrite Ha, Hb. cbn.
    eexists. split; [done|]. rewrite lookup_insert_eq. split; [done|].
    destruct (decide (this = other)) as [->|Hne].
    + by rewrite lookup_insert_eq.
    + by rewrite lookup_insert_ne.
Qed.

Lemma move_transfers_and_empties_witness :
  let mem : gmap nat (Maybe.t Z) :=
    {[ 1%nat := MaybeFactory.empty (Some 0%nat); 2%nat := MaybeFactory.value (Some 5%nat) 42 ]} in
  exists mem',
    Maybe.move_assign 1 2 mem = Some mem' /\
    mem' !! 1%nat = Some (MaybeFactory.value (Some 5%nat) 42) /\
    Maybe.valid <$> mem' !! 2%nat = Some false.
Proof.
  intros mem.
  destruct (proj1 (proj2 (@move_transfers_and_empties Z)) 1%nat 2%nat mem
              (MaybeFactory.empty (Some 0%nat)) (MaybeFactory.value (Some 5%nat) 42))
    as (mem' & a' & b' & Hmove & Ha' & Hb' & _); [discriminate|reflexivity|reflexivity|].
  exists mem'. split; [exact Hmove|].
  assert (Hcomputed : Maybe.move_assign 1 2 mem =
            Some (<[2%nat := Maybe.mk false (Some 5%nat) None]>
                    (<[1%nat := MaybeFactory.value (Some 5%nat) 42]> mem))) by reflexivity.
  rewrite Hmove in Hcomputed. injection Hcomputed as ->. split; reflexivity.
Defined.

(** C9: [force()] leaves every timer as it is: the handles after the call
    are the handles before it, so a later poll decides on the same
    [lastFireTime]; the program state differs at most in what the
    callback did to the application state. A later poll of the
    unconditional policy that reads the same clock value fires or not as
    it would have without the call, and so does every poll of a later
    run of the loop whose conditions are plain values. *)
Theorem force_leaves_timer {U E R} :
  (forall (m : Maybe.t R) (dt : Z) (w : World U R) r m' w',
     force m dt w = Some (r, m', w') ->
     sites w' = sites w /\
     (Maybe.valid m = true -> user w' = user w) /\
     (Maybe.valid m = false ->
      exists tag h, getHandle m = Some tag /\ sites w !! tag = Some h /\
        user w' = snd (invoke (LocalHandle.f h) (wrap32 dt) (user w))) /\
     (user w' = user w -> w' = w) /\
     (forall Tag millis interval f t u1 u1',
        is_Some (sites w !! Tag) ->
        millis (user w) = (t, u1) ->
        millis (user w') = (t, u1') ->
        Maybe.valid (fst (every_impl Tag millis interval f w')) =
        Maybe.valid (fst (every_impl Tag millis interval f w)) /\
        sites (snd (every_impl Tag millis interval f w')) =
        sites (snd (every_impl Tag millis interval f w)))) /\
  (forall (m : Maybe.t R) (dt : Z) (w : World (Board E) R) r m' w' Tag passes,
     force m dt w = Some (r, m', w') ->
     Forall (fun p => exists b, condition_of (snd p) = CondBool b) passes ->
     map Maybe.valid (fst (loop Tag passes w')) =
     map Maybe.valid (fst (loop Tag passes w))).
Proof.
  split.
  - intros m dt w r m' w' Hforce.
    destruct (force_frame m dt w r m' w' Hforce) as (Hs & Hv & He).
    split; [done|]. split; [done|]. split; [done|].
    destruct w as [s u], w' as [s' u']. cbn in Hs. subst s'.
    split; [by intros [= ->]|].
    intros Tag millis interval f t u1 u1' [h Hh] Hm Hm'. unfold every_impl.
    rewrite (poll_constructed Tag millis interval _ _ f (mkWorld s u') h t u1' Hh Hm').
    rewrite (poll_constructed Tag millis interval _ _ f (mkWorld s u) h t u1 Hh Hm).
    cbn zeta. destruct (wrap32 interval <=? _); [|done]. cbn [eval].
    by destruct (invoke _ _ u1'), (invoke _ _ u1).
  - intros m dt w r m' w' Tag passes Hforce Hall.
    destruct (force_frame m dt w r m' w' Hforce) as (Hs & _).
    by apply loop_decisions_same.
Qed.

Lemma force_leaves_timer_witness :
  let w := started 0 0 count_runs 0%nat in
  let w' := mkWorld (sites w) (mkBoard 0 1%nat) in
  let later := passes_at (exec_every 1000 count_runs) [500; 1000; 1200; 2000] in
  force (MaybeFactory.empty (Some 0%nat)) 0 w =
    Some (1%nat, MaybeFactory.value (Some 0%nat) 1%nat, w') /\
  sites w' = sites w /\
  map Maybe.valid (fst (loop 0 later w')) = map Maybe.valid (fst (loop 0 later w)).
Proof.
  intros w w' later.
  assert (Hforce : force (MaybeFactory.empty (Some 0%nat)) 0 w =
                   Some (1%nat, MaybeFactory.value (Some 0%nat) 1%nat, w')) by reflexivity.
  split; [exact Hforce|].
  pose proof (force_leaves_timer (U := Board nat) (E := nat) (R := nat)) as [H1 H2].
  split.
  - exact (proj1 (H1 _ _ _ _ _ _ Hforce)).
  - apply (H2 _ _ _ _ _ _ 0%nat later Hforce).
    repeat constructor; by exists true.
Defined.

(** What a poll can do to a timer that was started at the true time
    [L], for any clock function, when the reading it takes for [now] is
    the reading of the true time [T]: nothing, or restart it at [T]; and
    it fires only if the interval has really elapsed. *)
Lemma poll_cases {U R} Tag (millis : MillisFunc U) interval rc tc (f : Callback U R)
    (w : World U R) h t u1 L T :
  sites w !! Tag = Some h ->
  LocalHandle.last h = wrap32 L ->
  millis (user w) = (t, u1) ->
  wrap32 t = wrap32 T ->
  L <= T ->
  exists h',
    sites (snd (every_if_throttled_impl Tag millis interval rc tc f w)) !! Tag = Some h' /\
    (Maybe.valid (fst (every_if_throttled_impl Tag millis interval rc tc f w)) = false /\
     h' = h \/
     LocalHandle.last h' = wrap32 T /\
     (Maybe.valid (fst (every_if_throttled_impl Tag millis interval rc tc f w)) = true ->
      L + wrap32 interval <= T)).
Proof.
  intros Hh Hlast Hm HT Hle.
  assert (Hdt : LocalHandle.dt h (wrap32 t) <= T - L).
  { unfold LocalHandle.dt. rewrite Hlast, HT. by apply elapsed_le. }
  rewrite (poll_constructed _ _ _ _ _ _ _ _ _ _ Hh Hm). cbn zeta.
  destruct (Z.leb_spec (wrap32 interval) (LocalHandle.dt h (wrap32 t)));
    [|by exists h; split; [|left]].
  destruct (eval tc _ u1) as [[] u2]; [|by exists h; split; [|left]].
  destruct (eval rc _ u2) as [[] u3]; [destruct (invoke _ _ u3) as [r u4]|];
    (eexists; split; [apply lookup_insert_eq|]; right;
     split; [by cbn; rewrite HT|]; intros _; lia).
Qed.

Lemma running_ascending_from {A} since since' (passes : list (Z * Z * A)) :
  since' <= since -> running_ascending since passes -> running_ascending since' passes.
Proof.
  destruct passes as [|[[t t'] c] passes]; cbn; [done|].
  intros ? (? & ? & ?). split; [lia|done].
Qed.

(** On a board whose counter moves while polls run, no poll of a
    constructed call site fires less than an interval after the start of
    its timer. *)
Lemma running_loop_fires {E R} Tag interval (passes : list (Z * Z * Call (Running E) R)) :
  forall (w : World (Running E) R) h L,
  sites w !! Tag = Some h ->
  LocalHandle.last h = wrap32 L ->
  running_ascending L passes ->
  Forall (fun p => interval_of (snd p) = interval) passes ->
  Forall (fun r => Maybe.valid (snd r) = true -> L + wrap32 interval <= fst r)
         (fst (running_loop Tag passes w)).
Proof.
  induction passes as [|[[t t'] c] passes IH]; intros w h L Hh Hlast Hasc Hint;
    cbn [running_loop]; [by constructor|].
  destruct Hasc as (Hle & Htt' & Hasc). apply Forall_cons in Hint as [Hi Hint].
  cbn [snd] in Hi.
  assert (Hm : running_millis (user (at_times t t' w)) =
               (t, mkRunning t' t' (running_app (user w)))) by done.
  assert (Hs : sites (at_times t t' w) !! Tag = Some h) by done.
  unfold now_at. rewrite Hh. rewrite poll_eq.
  destruct (poll_cases Tag running_millis (interval_of c) (runCondition_of c)
              (throttleCondition_of c) (callback_of c) (at_times t t' w) h t _ L t
              Hs Hlast Hm eq_refl Hle) as (h' & Hh' & Hcase).
  destruct (every_if_throttled_impl _ _ _ _ _ _ (at_times t t' w)) as [m w1].
  cbn [fst snd] in Hh', Hcase. rewrite Hi in Hcase.
  destruct Hcase as [[Hv ->]|[Hlast' Hfire]].
  - specialize (IH w1 h L Hh' Hlast (running_ascending_from t' L _ ltac:(lia) Hasc) Hint).
    destruct (running_loop Tag passes w1) as [ms w2]. cbn [fst] in *.
    apply Forall_cons. split; [by cbn; rewrite Hv|done].
  - specialize (IH w1 h' t Hh' Hlast' (running_ascending_from t' t _ Htt' Hasc) Hint).
    destruct (running_loop Tag passes w1) as [ms w2]. cbn [fst] in *.
    apply Forall_cons. split; [done|].
    eapply Forall_impl; [exact IH|]. cbn. intros r Hr Hv. specialize (Hr Hv). lia.
Qed.

(** C10, as stated, fails: the first poll reads the clock twice, and with
    a clock that advances by one at every reading and interval 1, which
    is greater than 0, the first poll of a call site fires. *)
Lemma first_poll_fires_when_clock_ticks :
  let first := every_impl 0 ticking_clock 1 (FnDt (fun dt n => (dt, n))) (mkWorld ∅ 0) in
  Maybe.valid (fst first) = true /\
  Maybe.value (fst first) = Some 1 /\
  fst first <> MaybeFactory.empty (Some 0%nat).
Proof. vm_compute. repeat split; discriminate. Qed.

(** C10 (amended): the first poll of a call site constructs its timer
    with the clock reading that its constructor takes, and then reads
    the clock again; it returns an empty result whenever the clock has
    advanced by less than the interval between the two readings, so for
    every interval greater than zero when both readings are the same.
    No poll, the first one included, fires earlier than an interval
    after the first reading of the first poll, also when the counter
    moves while polls run. *)
Theorem first_poll_starts_timer {U E R} (Tag : nat) (interval : Z) :
  (forall (millis : MillisFunc U) rc tc (f : Callback U R) (w : World U R) t u1 t' u2,
     sites w !! Tag = None ->
     millis (user w) = (t, u1) ->
     millis u1 = (t', u2) ->
     wrap32 (wrap32 t' - wrap32 t) < wrap32 interval \/
     (wrap32 t' = wrap32 t /\ 0 < wrap32 interval) ->
     every_if_throttled_impl Tag millis interval rc tc f w =
       (MaybeFactory.empty (Some Tag),
        mkWorld (<[Tag := LocalHandle.mk (wrap32 t) millis f]> (sites w)) u2)) /\
  (forall (w : World (Running E) R) t t' c passes,
     sites w !! Tag = None ->
     running_ascending t ((t, t', c) :: passes) ->
     Forall (fun p => interval_of (snd p) = interval) ((t, t', c) :: passes) ->
     let results := fst (running_loop Tag ((t, t', c) :: passes) w) in
     (t' - t < wrap32 interval -> Maybe.valid <$> (snd <$> head results) = Some false) /\
     Forall (fun r => Maybe.valid (snd r) = true -> t + wrap32 interval <= fst r) results).
Proof.
  split.
  - intros millis rc tc f w t u1 t' u2 Hnone Hm1 Hm2 Hadv.
    rewrite (poll_first _ _ _ _ _ _ _ _ _ Hnone Hm1).
    erewrite poll_not_due; [done|apply lookup_insert_eq|exact Hm2|].
    unfold LocalHandle.dt. cbn [LocalHandle.last].
    destruct Hadv as [Hadv|[Hsame Hpos]]; [done|].
    by rewrite Hsame, Z.sub_diag, wrap32_small.
  - intros w t t' c passes Hnone (_ & Htt' & Hasc) Hall. cbn zeta.
    apply Forall_cons in Hall as [Hi Hint]. cbn [snd] in Hi.
    cbn [running_loop]. unfold now_at. rewrite Hnone. rewrite poll_eq.
    set (h0 := LocalHandle.mk (wrap32 t) running_millis (callback_of c)).
    set (w0 := mkWorld (<[Tag := h0]> (sites w)) (mkRunning t' t' (running_app (user w)))).
    assert (Hm : running_millis (user (at_times t t' w)) =
                 (t, mkRunning t' t' (running_app (user w)))) by done.
    assert (Hs : sites (at_times t t' w) !! Tag = None) by done.
    rewrite (poll_first _ _ _ _ _ _ (at_times t t' w) _ _ Hs Hm).
    fold h0. change (mkWorld (<[Tag := h0]> (sites (at_times t t' w))) _) with w0.
    assert (Hh0 : sites w0 !! Tag = Some h0) by apply lookup_insert_eq.
    assert (Hm0 : running_millis (user w0) = (t', mkRunning t' t' (running_app (user w))))
      by done.
    destruct (poll_cases Tag running_millis (interval_of c) (runCondition_of c)
                (throttleCondition_of c) (callback_of c) w0 h0 t' _ t t'
                Hh0 eq_refl Hm0 eq_refl Htt') as (h' & Hh' & Hcase).
    destruct (every_if_throttled_impl _ _ _ _ _ _ w0) as [m w1].
    cbn [fst snd] in Hh', Hcase. rewrite Hi in Hcase.
    assert (Hrest : forall L, t <= L <= t' -> LocalHandle.last h' = wrap32 L ->
              Forall (fun r => Maybe.valid (snd r) = true -> t + wrap32 interval <= fst r)
                     (fst (running_loop Tag passes w1))).
    { intros L HL Hlast'.
      pose proof (running_loop_fires Tag interval passes w1 h' L Hh' Hlast'
                    (running_ascending_from t' L _ ltac:(lia) Hasc) Hint) as Hf.
      eapply Forall_impl; [exact Hf|]. cbn. intros r Hr Hv. specialize (Hr Hv). lia. }
    destruct Hcase as [[Hv ->]|[Hlast' Hfire]].
    + specialize (Hrest t ltac:(lia) eq_refl).
      destruct (running_loop Tag passes w1) as [ms w2].
      cbn [fst snd head fmap option_fmap option_map].
      split; [by intros _; rewrite Hv|].
      apply Forall_cons. split; [by cbn; rewrite Hv|done].
    + specialize (Hrest t' ltac:(lia) Hlast').
      destruct (running_loop Tag passes w1) as [ms w2].
      cbn [fst snd head fmap option_fmap option_map].
      split.
      * intros Hlt. destruct (Maybe.valid m); [|done].
        specialize (Hfire eq_refl). lia.
      * apply Forall_cons. split; [done|done].
Qed.

Lemma first_poll_starts_timer_witness :
  let c := exec_every (U := Running unit) 1000 (FnDt (fun dt b => (dt, b))) in
  fst (every_impl 0 running_millis 1000 (FnDt (fun dt b => (dt, b)))
         (at_times 500 501 (mkWorld ∅ (mkRunning 0 0 tt)))) =
    MaybeFactory.empty (Some 0%nat) /\
  let passes := [(500, 501, c); (1000, 1001, c); (1499, 1499, c); (1500, 1502, c);
                 (2000, 2000, c); (2500, 2501, c)] in
  let results := fst (running_loop 0 passes (mkWorld ∅ (mkRunning 0 0 tt))) in
  map (fun r => (fst r, Maybe.value (snd r))) results =
    [(501, None); (1000, None); (1499, None); (1500, Some 1000); (2000, None);
     (2500, Some 1000)] /\
  Forall (fun r => Maybe.valid (snd r) = true -> 500 + 1000 <= fst r) results.
Proof.
  intros c.
  pose proof (first_poll_starts_timer (U := Running unit) (E := unit) (R := Z) 0 1000)
    as [H1 H2].
  split.
  - refine (f_equal fst
             (H1 running_millis (CondBool true) (CondBool true) (FnDt (fun dt b => (dt, b)))
                (at_times 500 501 (mkWorld ∅ (mkRunning 0 0 tt))) 500 (mkRunning 501 501 tt)
                501 (mkRunning 501 501 tt) eq_refl eq_refl eq_refl _)).
    left. vm_compute. reflexivity.
  - intros passes results. split; [reflexivity|].
    apply (H2 (mkWorld ∅ (mkRunning 0 0 tt)) 500 501 c
              [(1000, 1001, c); (1499, 1499, c); (1500, 1502, c);
               (2000, 2000, c); (2500, 2501, c)]).
    + reflexivity.
    + repeat split; vm_compute; congruence.
    + repeat constructor.
Defined.

(** * Further properties of the header *)

(** X1: the payload of a [Maybe<T>] is constructed exactly while its flag
    is set. The factory establishes this, the private [reset], copy and
    move construction and copy and move assignment keep it, every poll
    returns such a result and [force] leaves one behind; so [value()] of
    a valid result always finds a payload. *)
Theorem Maybe_wf_kept {U R} (a b : Maybe.t R) :
  Maybe_wf a ->
  Maybe_wf b ->
  (forall h (v : R), Maybe_wf (MaybeFactory.empty (R := R) h) /\ Maybe_wf (MaybeFactory.value h v)) /\
  Maybe_wf (Maybe.reset a) /\
  Maybe_wf (Maybe.copy_ctor a) /\
  Maybe_wf (fst (Maybe.move_ctor a)) /\ Maybe_wf (snd (Maybe.move_ctor a)) /\
  Maybe_wf (fst (Maybe.move_assign_body a b)) /\
  Maybe_wf (snd (Maybe.move_assign_body a b)) /\
  Maybe_wf (Maybe_copy_assign_body a b) /\
  (forall Tag millis interval rc tc f (w : World U R),
     Maybe_wf (fst (every_if_throttled_impl Tag millis interval rc tc f w))) /\
  (forall dt (w : World U R) r m' w', force a dt w = Some (r, m', w') -> Maybe_wf m') /\
  (Maybe.valid a = true -> is_Some (Maybe.value a)).
Proof.
  intros Ha Hb.
  assert (Hpoll : forall Tag millis interval rc tc f (w : World U R),
            Maybe_wf (fst (every_if_throttled_impl Tag millis interval rc tc f w))).
  { intros Tag millis interval rc tc f w.
    pose proof (poll_result Tag millis interval rc tc f w) as Hres.
    destruct (every_if_throttled_impl Tag millis interval rc tc f w) as [m w1].
    destruct Hres as (_ & _ & Hres). cbn [fst]. unfold Maybe_wf.
    unfold Maybe.valid, Maybe.value in Hres. by destruct (Maybe.has m). }
  assert (Hforce : forall dt (w : World U R) r m' w',
            force a dt w = Some (r, m', w') -> Maybe_wf m').
  { intros dt w r m' w'. unfold force. destruct (Maybe.valid a) eqn:Hv.
    - destruct (Maybe.value a); [|done]. cbn. by intros [= <- <- <-].
    - destruct (getHandle a) as [tag|]; [|done]. cbn.
      destruct (sites w !! tag) as [h|]; [|done]. cbn.
      unfold LocalHandle.exec, RunAndReturn_run.
      destruct (invoke _ _ _) as [r' u']. cbn. intros [= <- <- <-]. cbn. eauto. }
  split; [by intros h v; split; cbn; eauto|].
  unfold Maybe_wf in Ha, Hb.
  repeat split; try done;
    unfold Maybe_wf, Maybe.valid, Maybe.value;
    destruct a as [[] ha [va|]], b as [[] hb [vb|]]; cbn in *;
    try done; eauto.
Qed.

Lemma Maybe_wf_kept_witness :
  let a := MaybeFactory.value (Some 0%nat) 7 in
  let b := MaybeFactory.empty (R := Z) (Some 1%nat) in
  fst (Maybe.move_assign_body a b) = MaybeFactory.empty (Some 1%nat) /\
  Maybe_wf (fst (Maybe.move_assign_body a b)) /\
  Maybe_wf (snd (Maybe.move_ctor a)) /\
  is_Some (Maybe.value a).
Proof.
  intros a b.
  assert (Ha : Maybe_wf a) by (cbn; eauto).
  assert (Hb : Maybe_wf b) by reflexivity.
  pose proof (Maybe_wf_kept (U := unit) a b Ha Hb)
    as (_ & _ & _ & _ & H5 & H6 & _ & _ & _ & _ & H11).
  split; [reflexivity|]. split; [exact H6|]. split; [exact H5|exact (H11 eq_refl)].
Defined.

(** X2: copying a [Maybe<T>] gives the destination the flag, the handle
    and the payload of the source and leaves the source as it is: the
    copy constructor returns an equal object, copy assignment makes the
    destination equal to the source, and copy assignment of an object to
    itself changes nothing. *)
Theorem copy_keeps_source {R} (other : Maybe.t R) :
  Maybe_wf other ->
  Maybe.copy_ctor other = other /\
  (forall (this : Maybe.t R), Maybe_wf this -> Maybe_copy_assign_body this other = other) /\
  (forall (p q : nat) (mem : gmap nat (Maybe.t R)) a,
     Maybe_wf a ->
     mem !! p = Some a ->
     mem !! q = Some other ->
     exists mem',
       Maybe_copy_assign p q mem = Some mem' /\
       mem' !! p = Some other /\ mem' !! q = Some other /\
       (forall k, k <> p -> mem' !! k = mem !! k)).
Proof.
  intros Hwf. unfold Maybe_wf in Hwf.
  assert (Hbody : forall this : Maybe.t R, Maybe_wf this ->
                    Maybe_copy_assign_body this other = other).
  { intros [[] ht [vt|]] Ht; cbn in Ht; try done; try (by destruct Ht);
      destruct other as [[] ho [vo|]]; cbn in Hwf; try done; by destruct Hwf. }
  split; [|split; [done|]].
  - destruct other as [[] ho [vo|]]; cbn in Hwf; try done.
  - intros p q mem a Ha Hp Hq. unfold Maybe_copy_assign.
    destruct (decide (p = q)) as [->|Hne].
    + rewrite Hq. cbn. exists mem. by repeat split.
    + rewrite Hp, Hq. cbn. rewrite (Hbody a Ha).
      eexists. split; [done|]. rewrite lookup_insert_eq.
      split; [done|]. split; [by rewrite lookup_insert_ne|].
      intros k Hk. by rewrite lookup_insert_ne.
Qed.

Lemma copy_keeps_source_witness :
  let src := MaybeFactory.value (Some 5%nat) 42 in
  let mem : gmap nat (Maybe.t Z) := {[ 1%nat := MaybeFactory.empty (Some 0%nat); 2%nat := src ]} in
  Maybe.copy_ctor src = src /\
  exists mem', Maybe_copy_assign 1 2 mem = Some mem' /\
               mem' !! 1%nat = Some src /\ mem' !! 2%nat = Some src.
Proof.
  intros src mem.
  assert (Hsrc : Maybe_wf src) by (cbn; eauto).
  pose proof (copy_keeps_source src Hsrc) as (H1 & _ & H3).
  split; [exact H1|].
  destruct (H3 1%nat 2%nat mem (MaybeFactory.empty (Some 0%nat)))
    as (mem' & Hc & Hp & Hq & _); [reflexivity|reflexivity|reflexivity|].
  exists mem'. split; [exact Hc|]. split; [exact Hp|exact Hq].
Defined.

(** The first poll of a call site stores its callback and its clock
    function in the handle it constructs. *)
Lemma first_poll_stores {U R} (Tag : nat) (millis : MillisFunc U) (interval : Z)
    (rc tc : Condition U) (f : Callback U R) (w : World U R) :
  sites w !! Tag = None ->
  exists h, sites (snd (every_if_throttled_impl Tag millis interval rc tc f w)) !! Tag
            = Some h /\
    LocalHandle.f h = f /\ LocalHandle.millis h = millis.
Proof.
  intros Hnone. destruct (millis (user w)) as [t u1] eqn:Hm.
  rewrite (poll_first _ _ _ _ _ _ _ _ _ Hnone Hm).
  set (h0 := LocalHandle.mk (wrap32 t) millis f).
  set (w0 := mkWorld _ u1).
  assert (Hh : sites w0 !! Tag = Some h0) by apply lookup_insert_eq.
  destruct (millis (user w0)) as [t' u2] eqn:Hm'.
  rewrite (poll_constructed _ _ _ _ _ _ _ _ _ _ Hh Hm'). cbn zeta.
  destruct (wrap32 interval <=? _); [|by exists h0].
  destruct (eval tc _ _) as [[] u3]; [|by exists h0].
  destruct (eval rc _ _) as [[] u4]; [destruct (invoke _ _ _) as [r u5]|];
    (eexists; split; [apply lookup_insert_eq|done]).
Qed.

(** X3: the callback of a call site is the one of its first poll. Once
    the handle exists, a poll does not look at the callback it is given:
    with any callback of the type of the stored one (a function pointer
    of the same signature, the same lambda with other captures) the
    result and the state afterwards are those of a poll that is given
    the stored callback, and what runs is the stored callback. The
    first poll stores its callback and its clock function. *)
Theorem poll_runs_first_callback {U R} (Tag : nat) (millis : MillisFunc U) (interval : Z)
    (rc tc : Condition U) (f f' : Callback U R) (w : World U R) :
  (forall h,
     sites w !! Tag = Some h ->
     same_type f' (LocalHandle.f h) ->
     every_if_throttled_impl Tag millis interval rc tc f' w =
     every_if_throttled_impl Tag millis interval rc tc (LocalHandle.f h) w) /\
  (sites w !! Tag = None ->
   exists h, sites (snd (every_if_throttled_impl Tag millis interval rc tc f w)) !! Tag
             = Some h /\
     LocalHandle.f h = f /\ LocalHandle.millis h = millis).
Proof.
  split.
  - intros h Hh _. destruct (millis (user w)) as [t u1] eqn:Hm.
    by rewrite !(poll_constructed _ _ _ _ _ _ _ _ _ _ Hh Hm).
  - apply first_poll_stores.
Qed.

Lemma poll_runs_first_callback_witness :
  let w := started 0 0 report_dt tt in
  let other : Callback (Board unit) Z := FnDt (fun dt b => (-1, b)) in
  same_type other report_dt /\
  every_if_throttled_impl 0 board_millis 1000 (CondBool true) (CondBool true)
    other (at_time 1000 w) =
  every_if_throttled_impl 0 board_millis 1000 (CondBool true) (CondBool true)
    report_dt (at_time 1000 w) /\
  Maybe.value (fst (every_if_throttled_impl 0 board_millis 1000 (CondBool true)
                      (CondBool true) other (at_time 1000 w))) = Some 1000.
Proof.
  intros w other. split; [exact I|]. split; [|reflexivity].
  exact (proj1 (poll_runs_first_callback 0 board_millis 1000 (CondBool true) (CondBool true)
                  report_dt other (at_time 1000 w))
           (LocalHandle.mk (wrap32 0) board_millis report_dt) eq_refl I).
Defined.

(** X4: handles are never removed and their callback and clock function
    never change: after a poll of any call site, and after [reset] of
    any handle, every handle that existed still exists with the same
    callback and clock function, and the handles of the other call
    sites are exactly as before. *)
Theorem handles_persist {U R} (tag : nat) (h : LocalHandle.t U R) (w : World U R) :
  sites w !! tag = Some h ->
  (forall Tag millis interval rc tc f,
     exists h',
       sites (snd (every_if_throttled_impl Tag millis interval rc tc f w)) !! tag = Some h' /\
       LocalHandle.f h' = LocalHandle.f h /\
       LocalHandle.millis h' = LocalHandle.millis h /\
       (Tag <> tag -> h' = h)) /\
  (forall handle,
     exists h',
       sites (reset handle w) !! tag = Some h' /\
       LocalHandle.f h' = LocalHandle.f h /\
       LocalHandle.millis h' = LocalHandle.millis h /\
       (handle <> Some tag -> h' = h)).
Proof.
  intros Hh. split.
  - intros Tag millis interval rc tc f.
    destruct (decide (Tag = tag)) as [->|Hne].
    + destruct (millis (user w)) as [t u1] eqn:Hm.
      rewrite (poll_constructed _ _ _ _ _ _ _ _ _ _ Hh Hm). cbn zeta.
      destruct (wrap32 interval <=? _); [|by exists h].
      destruct (eval tc _ _) as [[] u3]; [|by exists h].
      destruct (eval rc _ _) as [[] u4]; [destruct (invoke _ _ _) as [r u5]|];
        (eexists; split; [apply lookup_insert_eq|done]).
    + exists h. unfold every_if_throttled_impl.
      destruct (match sites w !! Tag with Some _ => _ | None => _ end) as [h0 u0].
      destruct (call_millis millis u0) as [now u1].
      destruct (if wrap32 interval <=? _ then _ else _) as [[m h1] u2]. cbn.
      by rewrite lookup_insert_ne.
  - intros [tag'|]; [|by exists h]. unfold reset.
    destruct (decide (tag' = tag)) as [->|Hne].
    + rewrite Hh. unfold LocalHandle.reset.
      destruct (call_millis _ _) as [now u]. cbn.
      eexists. split; [apply lookup_insert_eq|done].
    + exists h. destruct (sites w !! tag') as [h0|]; [|done].
      destruct (LocalHandle.reset h0 (user w)) as [h1 u]. cbn.
      by rewrite lookup_insert_ne.
Qed.

Lemma handles_persist_witness :
  let w : World (Board unit) Z :=
    mkWorld {[ 0%nat := LocalHandle.mk 0 board_millis report_dt;
               1%nat := LocalHandle.mk 0 board_millis (Fn (fun b => (5, b))) ]}
            (mkBoard 2000 tt) in
  sites (snd (every_impl 0 board_millis 1000 report_dt w)) !! 1%nat = sites w !! 1%nat /\
  sites (reset (Some 0%nat) w) !! 1%nat = sites w !! 1%nat.
Proof.
  intros w.
  pose proof (handles_persist 1%nat (LocalHandle.mk 0 board_millis (Fn (fun b => (5, b)))) w
                eq_refl) as [H1 H2].
  split.
  - destruct (H1 0%nat board_millis 1000 (CondBool true) (CondBool true) report_dt)
      as (h' & Hl & _ & _ & Heq).
    rewrite (Heq ltac:(discriminate)) in Hl. exact Hl.
  - destruct (H2 (Some 0%nat)) as (h' & Hl & _ & _ & Heq).
    rewrite (Heq ltac:(discriminate)) in Hl. exact Hl.
Defined.

(** After a poll a handle is one that was there before, or the handle of
    the polled call site with a clock reading as its [lastFireTime]. *)
Lemma poll_sites_cases {U R} Tag (millis : MillisFunc U) interval rc tc
    (f : Callback U R) (w : World U R) tag h :
  sites (snd (every_if_throttled_impl Tag millis interval rc tc f w)) !! tag = Some h ->
  sites w !! tag = Some h \/ (tag = Tag /\ exists t, LocalHandle.last h = wrap32 t).
Proof.
  assert (Hc : forall (w0 : World U R) h0,
            sites w0 !! Tag = Some h0 ->
            sites (snd (every_if_throttled_impl Tag millis interval rc tc f w0)) !! tag
              = Some h ->
            sites w0 !! tag = Some h \/ (tag = Tag /\ exists t, LocalHandle.last h = wrap32 t)).
  { intros w0 h0 Hh0. destruct (millis (user w0)) as [t u1] eqn:Hm.
    rewrite (poll_constructed _ _ _ _ _ _ _ _ _ _ Hh0 Hm). cbn zeta.
    assert (Hreset : <[Tag := LocalHandle.reset_at h0 (wrap32 t)]> (sites w0) !! tag = Some h ->
              sites w0 !! tag = Some h \/
              (tag = Tag /\ exists t, LocalHandle.last h = wrap32 t)).
    { destruct (decide (Tag = tag)) as [->|Hne].
      - rewrite lookup_insert_eq. intros [= <-]. right. split; [done|]. by exists t.
      - rewrite lookup_insert_ne by done. by left. }
    destruct (wrap32 interval <=? _); [|by left].
    destruct (eval tc _ _) as [[] u3]; [|by left].
    destruct (eval rc _ _) as [[] u4]; [destruct (invoke _ _ _) as [r u5]|]; exact Hreset. }
  destruct (sites w !! Tag) as [h0|] eqn:Hh0; [by apply (Hc w h0)|].
  destruct (millis (user w)) as [t u1] eqn:Hm.
  rewrite (poll_first _ _ _ _ _ _ _ _ _ Hh0 Hm). intros Hl.
  eapply Hc in Hl; [|apply lookup_insert_eq].
  destruct Hl as [Hl|Hl]; [|by right]. cbn [sites] in Hl.
  destruct (decide (Tag = tag)) as [->|Hne].
  - rewrite lookup_insert_eq in Hl. injection Hl as <-. right. split; [done|]. by exists t.
  - rewrite lookup_insert_ne in Hl by done. by left.
Qed.

(** X5: every timer holds a value of [uint32_t]: if the [lastFireTime]
    of every handle is in the range [0, 2^32), it still is after a poll
    and after [reset], and a handle constructed by a poll is in the
    range; this is so on a board without handles. *)
Theorem timers_in_range {U R} (w : World U R) :
  (forall tag h, sites w !! tag = Some h -> 0 <= LocalHandle.last h < 2 ^ 32) ->
  (forall Tag millis interval rc tc f tag h,
     sites (snd (every_if_throttled_impl Tag millis interval rc tc f w)) !! tag = Some h ->
     0 <= LocalHandle.last h < 2 ^ 32) /\
  (forall handle tag h,
     sites (reset handle w) !! tag = Some h -> 0 <= LocalHandle.last h < 2 ^ 32).
Proof.
  intros Hinv. split.
  - intros Tag millis interval rc tc f tag h Hl.
    apply poll_sites_cases in Hl as [Hl|[_ [t ->]]]; [by apply (Hinv tag)|].
    apply wrap32_range.
  - intros [tag'|] tag h; [|apply Hinv]. unfold reset.
    destruct (sites w !! tag') as [h0|] eqn:Hh0; [|apply Hinv].
    unfold LocalHandle.reset, call_millis. destruct (LocalHandle.millis h0 (user w)) as [t u].
    cbn. destruct (decide (tag' = tag)) as [->|Hne].
    + rewrite lookup_insert_eq. intros [= <-]. apply wrap32_range.
    + rewrite lookup_insert_ne by done. apply Hinv.
Qed.

Lemma timers_in_range_witness :
  exists h,
    sites (snd (every_impl 3 board_millis 1000 report_dt
                  (at_time (2 ^ 32 + 17) (power_on tt)))) !! 3%nat = Some h /\
    LocalHandle.last h = 17 /\ 0 <= LocalHandle.last h < 2 ^ 32.
Proof.
  assert (Hinv : forall tag (h : LocalHandle.t (Board unit) Z),
            sites (at_time (2 ^ 32 + 17) (power_on (R := Z) tt)) !! tag = Some h ->
            0 <= LocalHandle.last h < 2 ^ 32).
  { intros tag h. cbn. by rewrite lookup_empty. }
  exists (LocalHandle.mk 17 board_millis report_dt).
  assert (Hl : sites (snd (every_impl 3 board_millis 1000 report_dt
                             (at_time (2 ^ 32 + 17) (power_on tt)))) !! 3%nat
               = Some (LocalHandle.mk 17 board_millis report_dt)) by reflexivity.
  split; [exact Hl|]. split; [reflexivity|].
  exact (proj1 (timers_in_range _ Hinv) 3%nat board_millis 1000 (CondBool true)
           (CondBool true) report_dt 3%nat _ Hl).
Defined.

(** Two boards on which call site [Tag] has the same handle decide the
    same way at a pass through it whose condition, if any, is a plain
    value, and leave it with the same handle. *)
Lemma pass_decision_local {E R} Tag t (c : Call (Board E) R) (w w' : World (Board E) R) :
  sites w' !! Tag = sites w !! Tag ->
  (exists b, condition_of c = CondBool b) ->
  Maybe.valid (fst (poll Tag board_millis c (at_time t w'))) =
  Maybe.valid (fst (poll Tag board_millis c (at_time t w))) /\
  sites (snd (poll Tag board_millis c (at_time t w'))) !! Tag =
  sites (snd (poll Tag board_millis c (at_time t w))) !! Tag.
Proof.
  intros Hs [b Hb].
  destruct c as [i f|i rc f|i tc f]; cbn in Hb; try subst rc; try subst tc;
    cbn [poll]; unfold every_impl, every_if_impl, throttled_impl;
    unfold every_if_throttled_impl, LocalHandle.ctor, call_millis;
    cbn [at_time sites user board_millis]; rewrite Hs;
    destruct (sites w !! Tag) as [h|]; cbn zeta;
    destruct (wrap32 i <=? _); cbn [eval fst snd sites];
    rewrite ?lookup_insert_eq; try done;
    try (destruct b; cbn [fst snd sites]; rewrite ?lookup_insert_eq; try done);
    unfold LocalHandle.exec, RunAndReturn_run;
    destruct (invoke _ _ _), (invoke _ _ _); cbn [fst snd sites];
    by rewrite ?lookup_insert_eq.
Qed.

(** A pass through another call site leaves the handle of [Tag] as it
    is. *)
Lemma poll_other_site {U R} Tag tag (millis : MillisFunc U) (c : Call U R) (w : World U R) :
  tag <> Tag ->
  sites (snd (poll tag millis c w)) !! Tag = sites w !! Tag.
Proof.
  intros Hne. rewrite poll_eq. unfold every_if_throttled_impl.
  destruct (match sites w !! tag with Some _ => _ | None => _ end) as [h0 u0].
  destruct (call_millis millis u0) as [now u1].
  destruct (if wrap32 _ <=? _ then _ else _) as [[m h1] u2]. cbn.
  by rewrite lookup_insert_ne.
Qed.

Lemma loop_sites_local {E R} Tag (passes : list (nat * (Z * Call (Board E) R))) :
  forall w w' : World (Board E) R,
  sites w' !! Tag = sites w !! Tag ->
  Forall (fun p => exists b, condition_of (snd p) = CondBool b) (passes_of Tag passes) ->
  map Maybe.valid (results_of Tag passes (fst (loop_sites passes w'))) =
  map Maybe.valid (fst (loop Tag (passes_of Tag passes) w)).
Proof.
  induction passes as [|[tag [t c]] passes IH]; intros w w' Hs Hall; cbn; [done|].
  cbn [passes_of] in Hall. destruct (decide (tag = Tag)) as [->|Hne].
  - apply Forall_cons in Hall as [Hc Hall]. cbn [snd] in Hc. cbn [loop].
    destruct (pass_decision_local Tag t c w w' Hs Hc) as [Hv Hs1].
    destruct (poll Tag board_millis c (at_time t w')) as [m' w1'].
    destruct (poll Tag board_millis c (at_time t w)) as [m w1].
    cbn [fst snd] in Hv, Hs1. specialize (IH w1 w1' Hs1 Hall).
    destruct (loop_sites passes w1') as [ms' w2'].
    destruct (loop Tag (passes_of Tag passes) w1) as [ms w2].
    cbn [fst results_of map] in *. by rewrite Hv, IH.
  - pose proof (poll_other_site Tag tag board_millis c (at_time t w') Hne) as Hs1.
    destruct (poll tag board_millis c (at_time t w')) as [m' w1'].
    cbn [snd at_time sites] in Hs1. rewrite Hs in Hs1.
    specialize (IH w w1' Hs1 Hall).
    destruct (loop_sites passes w1') as [ms' w2'].
    by cbn [fst results_of] in *.
Qed.

(** X6: the timers of different call sites are independent of what the
    polls of other call sites do. In a loop through several call sites,
    with conditions and callbacks that act on the application state
    (none of them reaches a timer through a handle with [reset]), the
    polls of one call site whose conditions are plain values fire
    exactly as they would if the loop went through that call site
    alone, whatever the polls of the other call sites decide and
    whatever their conditions and callbacks do to the application
    state. *)
Theorem call_sites_independent {E R} (Tag : nat)
    (passes : list (nat * (Z * Call (Board E) R))) (w : World (Board E) R) :
  Forall (fun p => exists b, condition_of (snd p) = CondBool b) (passes_of Tag passes) ->
  map Maybe.valid (results_of Tag passes (fst (loop_sites passes w))) =
  map Maybe.valid (fst (loop Tag (passes_of Tag passes) w)).
Proof. by apply loop_sites_local. Qed.

Lemma call_sites_independent_witness :
  let a := exec_every 1000 count_runs in
  let b := exec_throttled 300 (CondCall (fun u => (Nat.even (app u), u))) count_runs in
  let passes := [(0%nat, (0, a)); (1%nat, (0, b)); (1%nat, (400, b)); (0%nat, (1000, a));
                 (1%nat, (1000, b)); (0%nat, (1500, a)); (1%nat, (1800, b));
                 (0%nat, (2000, a))] in
  map Maybe.valid (results_of 0 passes (fst (loop_sites passes (power_on 0%nat)))) =
    [false; true; false; true] /\
  map Maybe.valid (fst (loop 0 (passes_of 0 passes) (power_on 0%nat))) =
    [false; true; false; true].
Proof.
  intros a b passes.
  assert (Hall : Forall (fun p => exists b, condition_of (snd p) = CondBool b)
                   (passes_of 0 passes)).
  { repeat constructor; by exists true. }
  pose proof (call_sites_independent 0 passes (power_on 0%nat) Hall) as H.
  split; [rewrite H|]; reflexivity.
Defined.

(** X7: whenever a poll fires, the stored callback has run exactly once,
    on an elapsed time that is at least the interval and less than 2^32,
    the result holds what it returned, and the timer has restarted at
    the clock reading of the poll. *)
Theorem fired_dt_bounds {U R} (Tag : nat) (millis : MillisFunc U) (interval : Z)
    (rc tc : Condition U) (f : Callback U R) (w : World U R)
    (h : LocalHandle.t U R) (t : Z) (u1 : U) :
  sites w !! Tag = Some h ->
  millis (user w) = (t, u1) ->
  Maybe.valid (fst (every_if_throttled_impl Tag millis interval rc tc f w)) = true ->
  let dt := LocalHandle.dt h (wrap32 t) in
  let w' := snd (every_if_throttled_impl Tag millis interval rc tc f w) in
  wrap32 interval <= dt < 2 ^ 32 /\
  (exists u2 u3,
     eval tc dt u1 = (true, u2) /\ eval rc dt u2 = (true, u3) /\
     Maybe.value (fst (every_if_throttled_impl Tag millis interval rc tc f w)) =
       Some (fst (invoke (LocalHandle.f h) dt u3)) /\
     user w' = snd (invoke (LocalHandle.f h) dt u3)) /\
  sites w' !! Tag = Some (LocalHandle.reset_at h (wrap32 t)).
Proof.
  intros Hh Hm. rewrite (poll_constructed _ _ _ _ _ _ _ _ _ _ Hh Hm). cbn zeta.
  destruct (Z.leb_spec (wrap32 interval) (LocalHandle.dt h (wrap32 t))) as [Hle|_]; [|done].
  destruct (eval tc _ u1) as [[] u2] eqn:Htc; [|done].
  destruct (eval rc _ u2) as [[] u3] eqn:Hrc; [|done].
  destruct (invoke _ _ u3) as [r u4] eqn:Hf. cbn. intros _.
  split; [split; [done|apply wrap32_range]|].
  split; [|apply lookup_insert_eq].
  exists u2, u3. by rewrite Hf.
Qed.

Lemma fired_dt_bounds_witness :
  let w := at_time (2 ^ 32 + 50) (started 0 (2 ^ 32 - 100) report_dt tt) in
  wrap32 100 <= 150 < 2 ^ 32 /\
  Maybe.value (fst (every_if_throttled_impl 0 board_millis 100 (CondBool true)
                      (CondBool true) report_dt w)) = Some 150.
Proof.
  intros w.
  pose proof (fired_dt_bounds 0 board_millis 100 (CondBool true) (CondBool true) report_dt w
                (LocalHandle.mk (wrap32 (2 ^ 32 - 100)) board_millis report_dt)
                (2 ^ 32 + 50) (mkBoard (2 ^ 32 + 50) tt) eq_refl eq_refl eq_refl)
    as (H1 & (u2 & u3 & _ & _ & H2 & _) & _).
  split; [exact H1|reflexivity].
Defined.

(** X8: an interval whose [uint32_t] value is 0 makes the unconditional
    policy fire at every poll, the first one included. *)
Theorem zero_interval_fires_always {U R} (Tag : nat) (millis : MillisFunc U)
    (interval : Z) (f : Callback U R) (w : World U R) :
  wrap32 interval = 0 ->
  Maybe.valid (fst (every_impl Tag millis interval f w)) = true.
Proof.
  intros Hzero. unfold every_impl, every_if_throttled_impl. rewrite Hzero.
  destruct (match sites w !! Tag with Some _ => _ | None => _ end) as [h u0].
  destruct (call_millis millis u0) as [now u1].
  pose proof (wrap32_range (now - LocalHandle.last h)) as Hr.
  destruct (Z.leb_spec 0 (LocalHandle.dt h now)) as [_|Hlt];
    [|unfold LocalHandle.dt in Hlt; lia].
  cbn [eval]. unfold LocalHandle.exec, RunAndReturn_run.
  by destruct (invoke _ _ _).
Qed.

Lemma zero_interval_fires_always_witness :
  Maybe.valid (fst (every_impl 0 board_millis 0 report_dt (power_on tt))) = true /\
  Maybe.valid (fst (every_impl 0 board_millis (2 ^ 32) report_dt (power_on tt))) = true.
Proof.
  split.
  - exact (zero_interval_fires_always 0 board_millis 0 report_dt (power_on tt) eq_refl).
  - exact (zero_interval_fires_always 0 board_millis (2 ^ 32) report_dt (power_on tt) eq_refl).
Defined.

(** X9: a poll knows the time elapsed since the timer started only modulo
    2^32: the unconditional policy fires exactly when
    [(t - since) mod 2^32] is at least the interval, for any time [t] of
    the poll. So a poll that comes a full cycle of the counter, plus
    less than the interval, after the start of the timer does not
    fire. *)
Theorem elapsed_known_modulo_cycle {E R} (Tag : nat) (interval : Z)
    (f : Callback (Board E) R) (w : World (Board E) R)
    (h : LocalHandle.t (Board E) R) (since t : Z) :
  sites w !! Tag = Some h ->
  LocalHandle.last h = wrap32 since ->
  Maybe.valid (fst (poll Tag board_millis (exec_every interval f) (at_time t w))) =
    (wrap32 interval <=? (t - since) mod 2 ^ 32).
Proof.
  intros Hh Hlast.
  assert (Hm : board_millis (user (at_time t w)) = (t, mkBoard t (app (user w)))) by done.
  assert (Hs : sites (at_time t w) !! Tag = Some h) by done.
  cbn [poll]. unfold every_impl.
  rewrite (poll_constructed _ _ _ _ _ _ _ _ _ _ Hs Hm). cbn zeta.
  unfold LocalHandle.dt. rewrite Hlast, wrap32_sub. fold (wrap32 (t - since)).
  destruct (wrap32 interval <=? wrap32 (t - since)); [|done].
  cbn [eval]. by destruct (invoke _ _ _).
Qed.

Lemma elapsed_known_modulo_cycle_witness :
  let w := started 0 0 report_dt tt in
  Maybe.valid (fst (poll 0 board_millis (exec_every 1000 report_dt)
                      (at_time (2 ^ 32 + 5) w))) = false /\
  Maybe.valid (fst (poll 0 board_millis (exec_every 1000 report_dt)
                      (at_time (2 ^ 32 - 1) w))) = true.
Proof.
  intros w. split.
  - exact (elapsed_known_modulo_cycle 0 1000 report_dt w
             (LocalHandle.mk (wrap32 0) board_millis report_dt) 0 (2 ^ 32 + 5)
             eq_refl eq_refl).
  - exact (elapsed_known_modulo_cycle 0 1000 report_dt w
             (LocalHandle.mk (wrap32 0) board_millis report_dt) 0 (2 ^ 32 - 1)
             eq_refl eq_refl).
Defined.

(** X10: the first poll of a call site reads the clock twice, once to
    construct the timer and once for the poll itself, and the
    unconditional policy fires at that poll exactly when the clock has
    advanced by at least the interval between the two readings. *)
Theorem first_poll_two_readings {U R} (Tag : nat) (millis : MillisFunc U)
    (interval : Z) (f : Callback U R) (w : World U R) (t t' : Z) (u1 u2 : U) :
  sites w !! Tag = None ->
  millis (user w) = (t, u1) ->
  millis u1 = (t', u2) ->
  Maybe.valid (fst (every_impl Tag millis interval f w)) =
    (wrap32 interval <=? wrap32 (wrap32 t' - wrap32 t)).
Proof.
  intros Hnone Hm Hm'. unfold every_impl.
  rewrite (poll_first _ _ _ _ _ _ _ _ _ Hnone Hm).
  erewrite poll_constructed; [|apply lookup_insert_eq|exact Hm']. cbn zeta.
  unfold LocalHandle.dt. cbn [LocalHandle.last].
  destruct (wrap32 interval <=? wrap32 (wrap32 t' - wrap32 t)); [|done].
  cbn [eval]. by destruct (invoke _ _ _).
Qed.

Lemma first_poll_two_readings_witness :
  let ticking : MillisFunc Z := fun n => (n, n + 1) in
  let w : World Z Z := mkWorld ∅ 0 in
  Maybe.valid (fst (every_impl 0 ticking 1 (FnDt (fun dt n => (dt, n))) w)) = true /\
  Maybe.valid (fst (every_impl 0 board_millis 1 report_dt (power_on tt))) = false.
Proof.
  intros ticking w. split.
  - exact (first_poll_two_readings 0 ticking 1 (FnDt (fun dt n => (dt, n))) w 0 1 1 2
             eq_refl eq_refl eq_refl).
  - exact (first_poll_two_readings 0 board_millis 1 report_dt (power_on tt) 0 0
             (mkBoard 0 tt) (mkBoard 0 tt) eq_refl eq_refl eq_refl).
Defined.

(** X11: [force()] a second time runs nothing: after a [force()] that
    returned, the result is present, and forcing it again, with any
    argument, returns the same value and leaves the result and the
    program state as they are. *)
Theorem force_twice {U R} (m : Maybe.t R) (dt dt' : Z) (w : World U R)
    (r : R) (m' : Maybe.t R) (w' : World U R) :
  force m dt w = Some (r, m', w') ->
  Maybe.valid m' = true /\ force m' dt' w' = Some (r, m', w').
Proof.
  intros Hforce.
  assert (Hm' : Maybe.valid m' = true /\ Maybe.value m' = Some r).
  { revert Hforce. unfold force. destruct (Maybe.valid m) eqn:Hv.
    - destruct (Maybe.value m) eqn:Hval; [|done]. cbn. by intros [= <- <- <-].
    - destruct (getHandle m) as [tag|]; [|done]. cbn.
      destruct (sites w !! tag) as [h|]; [|done]. cbn.
      unfold LocalHandle.exec, RunAndReturn_run.
      destruct (invoke _ _ _) as [r' u']. cbn. by intros [= <- <- <-]. }
  destruct Hm' as [Hv Hval]. split; [done|]. by apply force_present.
Qed.

Lemma force_twice_witness :
  let w := started 0 0 count_runs 0%nat in
  let w' := mkWorld (sites w) (mkBoard 0 1%nat) in
  let m' := MaybeFactory.value (Some 0%nat) 1%nat in
  force (MaybeFactory.empty (Some 0%nat)) 0 w = Some (1%nat, m', w') /\
  force m' 9 w' = Some (1%nat, m', w').
Proof.
  intros w w' m'.
  assert (Hforce : force (MaybeFactory.empty (Some 0%nat)) 0 w = Some (1%nat, m', w'))
    by reflexivity.
  split; [exact Hforce|].
  exact (proj2 (force_twice _ 0 9 _ _ _ _ Hforce)).
Defined.

(** X12: the two conditional policies differ only at a poll at which the
    interval has elapsed and the condition is false. Before the
    interval has elapsed, and when the condition is true, [every_if] and
    [throttled] return the same result and leave the same state; when
    the interval has elapsed and the condition is false both return an
    empty result, and [every_if] has restarted the timer while
    [throttled] has left it as it was. *)
Theorem conditional_policies_compared {U R} (Tag : nat) (millis : MillisFunc U)
    (interval : Z) (c : Condition U) (f : Callback U R) (w : World U R)
    (h : LocalHandle.t U R) (t : Z) (u1 : U) :
  sites w !! Tag = Some h ->
  millis (user w) = (t, u1) ->
  let dt := LocalHandle.dt h (wrap32 t) in
  (dt < wrap32 interval \/ fst (eval c dt u1) = true ->
   every_if_impl Tag millis interval c f w = throttled_impl Tag millis interval c f w) /\
  (wrap32 interval <= dt ->
   fst (eval c dt u1) = false ->
   every_if_impl Tag millis interval c f w =
     (MaybeFactory.empty (Some Tag),
      mkWorld (<[Tag := LocalHandle.reset_at h (wrap32 t)]> (sites w)) (snd (eval c dt u1))) /\
   throttled_impl Tag millis interval c f w =
     (MaybeFactory.empty (Some Tag), mkWorld (sites w) (snd (eval c dt u1)))).
Proof.
  intros Hh Hm. cbn zeta. unfold every_if_impl, throttled_impl.
  rewrite !(poll_constructed _ _ _ _ _ _ _ _ _ _ Hh Hm). cbn zeta. cbn [eval].
  destruct (Z.leb_spec (wrap32 interval) (LocalHandle.dt h (wrap32 t))) as [Hle|Hlt].
  - destruct (eval c _ u1) as [[] u2]; cbn [fst snd].
    + split; [done|]. by intros _ [=].
    + split; [by intros [?|[=]]; lia|]. done.
  - split; [done|]. intros; lia.
Qed.

Lemma conditional_policies_compared_witness :
  let w := at_time 1000 (started 0 0 report_dt tt) in
  let c := CondBool (U := Board unit) false in
  sites (snd (every_if_impl 0 board_millis 1000 c report_dt w)) !! 0%nat =
    Some (LocalHandle.mk 1000 board_millis report_dt) /\
  sites (snd (throttled_impl 0 board_millis 1000 c report_dt w)) !! 0%nat =
    Some (LocalHandle.mk 0 board_millis report_dt) /\
  every_if_impl 0 board_millis 1000 (CondBool true) report_dt w =
    throttled_impl 0 board_millis 1000 (CondBool true) report_dt w.
Proof.
  intros w c.
  pose proof (conditional_policies_compared 0 board_millis 1000 c report_dt w
                (LocalHandle.mk (wrap32 0) board_millis report_dt) 1000 (mkBoard 1000 tt)
                eq_refl eq_refl) as [_ H2].
  destruct H2 as [Ha Hb]; [vm_compute; congruence|reflexivity|].
  rewrite Ha, Hb. split; [reflexivity|]. split; [reflexivity|].
  apply (conditional_policies_compared 0 board_millis 1000 (CondBool true) report_dt w
           (LocalHandle.mk (wrap32 0) board_millis report_dt) 1000 (mkBoard 1000 tt)
           eq_refl eq_refl).
  by right.
Defined.

(** Counting fires: [n] times that start at least [d] after [a], are at
    least [d] apart and are not after [T] need [n * d] of time. *)
Lemma spaced_count d T : forall (l : list Z) a,
  0 <= d ->
  match l with [] => True | x :: _ => a + d <= x end ->
  spaced d l ->
  Forall (fun t => t <= T) l ->
  a <= T ->
  Z.of_nat (length l) * d <= T - a.
Proof.
  induction l as [|x l IH]; intros a Hd Hhead Hsp Hall HaT; cbn [length].
  { lia. }
  apply Forall_cons in Hall as [HxT Hall].
  assert (Hl : Z.of_nat (length l) * d <= T - x).
  { apply IH; try done. - destruct l; [done|]. by destruct Hsp.
    - destruct l as [|y l]; [done|]. by destruct Hsp. }
  rewrite Nat2Z.inj_succ. lia.
Qed.

Lemma fire_times_Forall (P : Z -> Prop) : forall times fired,
  Forall P times -> Forall P (fire_times times fired).
Proof.
  induction times as [|t times IH]; intros [|[] fired] Hall; cbn; try done;
    apply Forall_cons in Hall as [Ht Hall]; [apply Forall_cons; split; [done|]|]; by apply IH.
Qed.

(** X13: a call site fires at most once per interval. Whatever the
    policies and conditions of its polls, if they all pass the interval
    [I] and time does not go back, the number of fires up to the time
    [T] times [I] is at most the time that has passed since the timer
    started. *)
Theorem fires_at_most_once_per_interval {E R} (Tag : nat) (interval since T : Z)
    (passes : list (Z * Call (Board E) R)) (w : World (Board E) R) :
  timer_since Tag since passes w ->
  ascending since (map fst passes) ->
  Forall (fun p => interval_of (snd p) = interval) passes ->
  Forall (fun t => t <= T) (map fst passes) ->
  since <= T ->
  let fired := map Maybe.valid (fst (loop Tag passes w)) in
  Z.of_nat (length (fire_times (map fst passes) fired)) * wrap32 interval <= T - since.
Proof.
  intros Hsince Hasc Hint HT HsT. cbn zeta.
  destruct (loop_started Tag since passes w Hsince) as (w0 & h & -> & Hh & Hlast).
  destruct (loop_fires_spaced Tag interval passes w0 h since Hh Hlast Hasc Hint)
    as [Hlow Hsp].
  pose proof (wrap32_range interval) as Hr.
  apply spaced_count; try done; [lia| |by apply fire_times_Forall].
  destruct (fire_times _ _) as [|x l]; [done|]. by apply Forall_cons in Hlow as [? _].
Qed.

Lemma fires_at_most_once_per_interval_witness :
  let times := [0; 1; 999; 1000; 1001; 2500; 2600; 3499; 3500] in
  let passes := passes_at (exec_throttled 1000 (ready_from 0) report_dt) times in
  let fired := map Maybe.valid (fst (loop 0 passes (power_on tt))) in
  fire_times times fired = [1000; 2500; 3500] /\
  Z.of_nat (length (fire_times times fired)) * 1000 <= 3500 - 0.
Proof.
  intros times passes fired. split; [reflexivity|].
  apply (fires_at_most_once_per_interval 0 1000 0 3500 passes (power_on tt)).
  - reflexivity.
  - repeat split; vm_compute; congruence.
  - repeat constructor.
  - repeat constructor; vm_compute; congruence.
  - vm_compute; congruence.
Defined.

(** X14: a poll whose callback returns [void] decides, runs and leaves
    the program state exactly as the same poll does for a callback that
    returns a value, and its [Maybe<void>] has the flag and the handle
    of that result. [force()] on a [Maybe<void>] likewise: it runs the
    stored callback if the result is empty, leaves it valid, and does
    nothing if it is valid already. *)
Theorem void_instantiation {U} (Tag : nat) (millis : MillisFunc U) (interval : Z)
    (rc tc : Condition U) (f : Callback U unit) (w : World U unit)
    (m : Maybe.t unit) (dt : Z) :
  every_if_throttled_impl_void Tag millis interval rc tc f w =
    (void_of (fst (every_if_throttled_impl Tag millis interval rc tc f w)),
     snd (every_if_throttled_impl Tag millis interval rc tc f w)) /\
  (Maybe_wf m ->
   force_void (void_of m) dt w =
     match force m dt w with
     | Some (_, m', w') => Some (void_of m', w')
     | None => None
     end) /\
  (forall m' w', force_void (void_of m) dt w = Some (m', w') -> MaybeVoid.valid m' = true).
Proof.
  split; [|split].
  - unfold every_if_throttled_impl_void, every_if_throttled_impl.
    destruct (match sites w !! Tag with Some _ => _ | None => _ end) as [h u0].
    destruct (call_millis millis u0) as [now u1].
    destruct (wrap32 interval <=? _); [|done].
    destruct (eval tc _ u1) as [[] u2]; [|done].
    destruct (eval rc _ u2) as [[] u3]; [|done].
    unfold LocalHandle_exec_void, LocalHandle.exec, RunAndReturn_void_run, RunAndReturn_run.
    by destruct (invoke _ _ u3) as [[] u4].
  - intros Hwf. unfold force_void, force, void_of, Maybe_wf in *.
    destruct m as [[] hd bx]; cbn in *.
    + destruct Hwf as [v ->]. done.
    + destruct hd as [tag|]; cbn; [|done].
      destruct (sites w !! tag) as [h|]; cbn; [|done].
      unfold LocalHandle_exec_void, LocalHandle.exec, RunAndReturn_void_run, RunAndReturn_run.
      by destruct (invoke _ _ _) as [[] u4].
  - intros m' w'. unfold force_void, void_of.
    destruct m as [[] hd bx]; cbn.
    + by intros [= <- <-].
    + destruct hd as [tag|]; cbn; [|done].
      destruct (sites w !! tag) as [h|]; cbn; [|done].
      unfold LocalHandle_exec_void, RunAndReturn_void_run.
      destruct (invoke _ _ _) as [[] u4]. by intros [= <- <-].
Qed.

Lemma void_instantiation_witness :
  let tick : Callback (Board nat) unit := Fn (fun b => (tt, mkBoard (clock b) (S (app b)))) in
  let w : World (Board nat) unit := started 0 0 tick 0%nat in
  force_void (MaybeVoid.ctor (Some 0%nat) false) 0 w =
    Some (MaybeFactory.voidValue (Some 0%nat), mkWorld (sites w) (mkBoard 0 1%nat)) /\
  fst (every_if_throttled_impl_void 0 board_millis 1000 (CondBool true) (CondBool true)
         tick (at_time 1000 w)) = MaybeFactory.voidValue (Some 0%nat).
Proof.
  intros tick w.
  pose proof (void_instantiation 0 board_millis 1000 (CondBool true) (CondBool true) tick
                (at_time 1000 w) (MaybeFactory.empty (Some 0%nat)) 0) as (H1 & _ & _).
  pose proof (void_instantiation 0 board_millis 1000 (CondBool true) (CondBool true) tick
                w (MaybeFactory.empty (Some 0%nat)) 0) as (_ & H2 & _).
  split.
  - exact (H2 eq_refl).
  - rewrite H1. reflexivity.
Defined.

(** X15: the header with handles decides as the header before handles
    did. On a call site whose handle exists, with the timer of the
    earlier header at the same value and the earlier header given the
    stored callback, a poll returns the same flag and payload, leaves
    the application in the same state and leaves the timer at the same
    value. *)
Theorem legacy_agrees {U R} (Tag : nat) (millis : MillisFunc U) (interval : Z)
    (rc tc : Condition U) (f : Callback U R) (w : World U R)
    (h : LocalHandle.t U R) (lasts : gmap nat Z) :
  sites w !! Tag = Some h ->
  Legacy.last_of lasts Tag = LocalHandle.last h ->
  let '(m, w') := every_if_throttled_impl Tag millis interval rc tc f w in
  let '(m0, lasts', u') :=
    Legacy.every_if_throttled_impl Tag millis interval rc tc (LocalHandle.f h) lasts (user w) in
  Maybe.has m = Legacy.has m0 /\
  Maybe.box m = Legacy.box m0 /\
  user w' = u' /\
  exists h', sites w' !! Tag = Some h' /\ Legacy.last_of lasts' Tag = LocalHandle.last h'.
Proof.
  intros Hh Hlast. destruct (millis (user w)) as [t u1] eqn:Hm.
  rewrite (poll_constructed _ _ _ _ _ _ _ _ _ _ Hh Hm). cbn zeta.
  unfold Legacy.every_if_throttled_impl, call_millis. rewrite Hm, Hlast.
  fold (LocalHandle.dt h (wrap32 t)).
  assert (Hnew : Legacy.last_of (<[Tag := wrap32 t]> lasts) Tag = wrap32 t).
  { unfold Legacy.last_of. by rewrite lookup_insert_eq. }
  destruct (wrap32 interval <=? _); [|by repeat split; eauto].
  destruct (eval tc _ u1) as [[] u2]; [|by repeat split; eauto].
  destruct (eval rc _ u2) as [[] u3]; [destruct (invoke _ _ u3) as [r u4]|];
    (repeat split; try done; eexists; split; [apply lookup_insert_eq|done]).
Qed.

Lemma legacy_agrees_witness :
  let w := at_time 1000 (started 0 0 report_dt tt) in
  let m := fst (every_if_throttled_impl 0 board_millis 1000 (CondBool true) (CondBool true)
                  report_dt w) in
  let m0 := fst (fst (Legacy.every_if_throttled_impl 0 board_millis 1000 (CondBool true)
                        (CondBool true) report_dt ∅ (user w))) in
  Maybe.box m = Some 1000 /\ Maybe.has m = Legacy.has m0 /\ Maybe.box m = Legacy.box m0.
Proof.
  intros w m m0.
  pose proof (legacy_agrees 0 board_millis 1000 (CondBool true) (CondBool true) report_dt w
                (LocalHandle.mk (wrap32 0) board_millis report_dt) ∅ eq_refl eq_refl) as H.
  destruct H as (H1 & H2 & _). split; [reflexivity|]. split; [exact H1|exact H2].
Defined.

(** X16: in the header before handles the timer of a call site starts at
    0, the start of the counter, and not at the first poll: the first
    poll of the unconditional policy fires exactly when the clock
    reading is at least the interval, and then runs the callback on that
    reading. *)
Theorem legacy_timer_starts_at_zero {U R} (Tag : nat) (millis : MillisFunc U)
    (interval : Z) (f : Callback U R) (lasts : gmap nat Z) (u u1 : U) (t : Z) :
  lasts !! Tag = None ->
  millis u = (t, u1) ->
  Legacy.every_impl Tag millis interval f lasts u =
    if wrap32 interval <=? wrap32 t
    then (Legacy.mk true (Some (fst (invoke f (wrap32 t) u1))),
          <[Tag := wrap32 t]> lasts, snd (invoke f (wrap32 t) u1))
    else (Legacy.mk false None, lasts, u1).
Proof.
  intros Hnone Hm. unfold Legacy.every_impl, Legacy.every_if_throttled_impl, call_millis.
  unfold Legacy.last_of. rewrite Hm, Hnone. cbn [default].
  rewrite Z.sub_0_r, (wrap32_small (wrap32 t)) by apply wrap32_range.
  destruct (wrap32 interval <=? wrap32 t); [|done]. cbn [eval].
  by destruct (invoke f (wrap32 t) u1).
Qed.

Lemma legacy_timer_starts_at_zero_witness :
  Legacy.every_impl 0 board_millis 1000 report_dt ∅ (mkBoard 500 tt) =
    (Legacy.mk false None, ∅, mkBoard 500 tt) /\
  Legacy.every_impl 0 board_millis 1000 report_dt ∅ (mkBoard 1000 tt) =
    (Legacy.mk true (Some 1000), {[ 0%nat := 1000 ]}, mkBoard 1000 tt).
Proof.
  split.
  - exact (legacy_timer_starts_at_zero 0 board_millis 1000 report_dt ∅ (mkBoard 500 tt)
             (mkBoard 500 tt) 500 eq_refl eq_refl).
  - exact (legacy_timer_starts_at_zero 0 board_millis 1000 report_dt ∅ (mkBoard 1000 tt)
             (mkBoard 1000 tt) 1000 eq_refl eq_refl).
Defined.

(** The schedule of a timer that is polled every millisecond: it fires
    at the multiples of the interval. [e] is the time already elapsed
    before the first poll. *)
Lemma schedule_consecutive interval : forall n since e,
  interval < 2 ^ 32 ->
  0 <= e < interval ->
  fire_times (consecutive (since + e + 1) n)
             (schedule interval since (consecutive (since + e + 1) n)) =
    multiples interval since (Z.to_nat ((e + Z.of_nat n) / interval)) /\
  within_cycle interval since (consecutive (since + e + 1) n).
Proof.
  induction n as [|n IH]; intros since e Hsmall He;
    cbn [consecutive schedule fire_times within_cycle].
  - by rewrite Z.add_0_r, Z.div_small by lia.
  - replace (since + e + 1 - since) with (e + 1) by lia.
    destruct (Z.leb_spec interval (e + 1)) as [Hle|Hlt].
    + assert (He1 : e + 1 = interval) by lia.
      destruct (IH (since + e + 1) 0 Hsmall ltac:(lia)) as [IHf IHc].
      replace (since + e + 1 + 0 + 1) with (since + e + 1 + 1) in IHf, IHc by lia.
      replace ((e + Z.of_nat (S n)) / interval) with (1 + Z.of_nat n / interval).
      2:{ replace (e + Z.of_nat (S n)) with (1 * interval + Z.of_nat n) by lia.
          rewrite Z.div_add_l by lia. done. }
      rewrite Z2Nat.inj_add by (try apply Z.div_pos; lia).
      change (Z.to_nat 1) with 1%nat. cbn [Nat.add multiples fire_times].
      replace (since + interval) with (since + e + 1) by lia.
      rewrite IHf, Z.add_0_l. split; [done|]. split; [lia|done].
    + destruct (IH since (e + 1) Hsmall ltac:(lia)) as [IHf IHc].
      replace (since + (e + 1) + 1) with (since + e + 1 + 1) in IHf, IHc by lia.
      replace (e + Z.of_nat (S n)) with (e + 1 + Z.of_nat n) by lia.
      split; [done|]. split; [lia|done].
Qed.

(** X17: a loop that reaches a call site of the unconditional policy
    every millisecond runs the callback exactly every [interval]
    milliseconds: from a timer started at [since], the polls at
    [since + 1], ..., [since + n] fire at [since + interval],
    [since + 2 * interval], ... and at no other time, for any interval
    greater than 0 and however often the counter wraps around. *)
Theorem polled_every_millisecond {E R} (Tag : nat) (interval since : Z) (n : nat)
    (f : Callback (Board E) R) (w : World (Board E) R) (h : LocalHandle.t (Board E) R) :
  sites w !! Tag = Some h ->
  LocalHandle.last h = wrap32 since ->
  0 < wrap32 interval ->
  let times := consecutive (since + 1) n in
  let fired := map Maybe.valid (fst (loop Tag (passes_at (exec_every interval f) times) w)) in
  fire_times times fired =
    multiples (wrap32 interval) since (Z.to_nat (Z.of_nat n / wrap32 interval)).
Proof.
  intros Hh Hlast Hpos. cbn zeta.
  pose proof (wrap32_range interval) as Hr.
  destruct (schedule_consecutive (wrap32 interval) n since 0 ltac:(lia) ltac:(lia))
    as [Hf Hc].
  rewrite Z.add_0_r in Hf, Hc. rewrite Z.add_0_l in Hf.
  assert (Htimes : map fst (passes_at (exec_every interval f) (consecutive (since + 1) n))
                   = consecutive (since + 1) n).
  { unfold passes_at. rewrite map_map. cbn. apply map_id. }
  rewrite (loop_every_schedule Tag interval _ w h since Hh Hlast).
  - by rewrite Htimes.
  - by rewrite Htimes.
  - unfold passes_at. apply Forall_forall. intros p Hp.
    apply list_elem_of_In, in_map_iff in Hp as (t & <- & _). by eexists.
Qed.

Lemma polled_every_millisecond_witness :
  let w := started 0 (2 ^ 32 - 5) report_dt tt in
  let times := consecutive (2 ^ 32 - 5 + 1) 10 in
  let fired := map Maybe.valid (fst (loop 0 (passes_at (exec_every 3 report_dt) times) w)) in
  fire_times times fired = [2 ^ 32 - 2; 2 ^ 32 + 1; 2 ^ 32 + 4].
Proof.
  intros w times fired.
  exact (polled_every_millisecond 0 3 (2 ^ 32 - 5) 10 report_dt w
           (LocalHandle.mk (wrap32 (2 ^ 32 - 5)) board_millis report_dt)
           eq_refl eq_refl eq_refl).
Defined.

(** The sketch on a board whose call site exists, with the sketch's
    callback stored. *)
Lemma sketch_constructed : forall times (w : World (Board (list string)) string) h since,
  sites w !! 0%nat = Some h ->
  LocalHandle.f h = hello ->
  LocalHandle.last h = wrap32 since ->
  within_cycle 1000 since times ->
  app (user (sketch times w)) =
    app (user w) ++
    replicate (length (fire_times times (schedule 1000 since times))) "Hello World"%string.
Proof.
  induction times as [|t times IH]; intros w h since Hh Hf Hlast Hcyc;
    cbn [sketch foldl schedule fire_times within_cycle] in *.
  { by rewrite app_nil_r. }
  destruct Hcyc as [Ht Hcyc]. fold (sketch times (sketch_loop t w)).
  unfold sketch_loop. rewrite (pass_constructed 0 _ t w h since Hh Hlast Ht).
  cbn [interval_of throttleCondition_of runCondition_of eval]. cbn zeta.
  change (wrap32 1000) with 1000.
  destruct (1000 <=? t - since).
  - rewrite Hf. cbn [invoke hello Maybe.valid Maybe.value MaybeFactory.value
                       Maybe.ctor_value Maybe.has Maybe.box].
    rewrite (IH _ (LocalHandle.reset_at h (wrap32 t)) t);
      [|apply lookup_insert_eq|done|done|done].
    cbn [Serial_println user app fire_times length replicate].
    by rewrite <- app_assoc.
  - cbn [Maybe.valid MaybeFactory.empty Maybe.ctor_empty Maybe.has].
    by rewrite (IH _ h since).
Qed.

(** X18: the example sketch prints the line "Hello World" once for every
    fire of its timer and nothing else: started on a board where its
    call site was not reached before, the lines on [Serial] after the
    runs of [loop()] at the given times are the lines that were there,
    followed by one "Hello World" per time at which the schedule with
    interval 1000 fires. *)
Theorem sketch_prints (t0 : Z) (times : list Z) (w : World (Board (list string)) string) :
  sites w !! 0%nat = None ->
  within_cycle 1000 t0 (t0 :: times) ->
  app (user (sketch (t0 :: times) w)) =
    app (user w) ++
    replicate (length (fire_times (t0 :: times) (schedule 1000 t0 (t0 :: times))))
              "Hello World"%string.
Proof.
  intros Hnone Hcyc.
  set (w0 := mkWorld (<[0%nat := LocalHandle.mk (wrap32 t0) board_millis hello]> (sites w))
                     (user w)).
  assert (Hfirst : sketch_loop t0 w = sketch_loop t0 w0).
  { unfold sketch_loop. cbn [poll]. unfold every_impl.
    assert (Hm : board_millis (user (at_time t0 w)) = (t0, mkBoard t0 (app (user w)))) by done.
    assert (Hs : sites (at_time t0 w) !! 0%nat = None) by done.
    by rewrite (poll_first _ _ _ _ _ _ (at_time t0 w) _ _ Hs Hm). }
  change (sketch (t0 :: times) w) with (sketch times (sketch_loop t0 w)).
  rewrite Hfirst. change (sketch times (sketch_loop t0 w0)) with (sketch (t0 :: times) w0).
  apply (sketch_constructed (t0 :: times) w0 (LocalHandle.mk (wrap32 t0) board_millis hello) t0);
    [apply lookup_insert_eq|done|done|done].
Qed.

Lemma sketch_prints_witness :
  app (user (sketch [10; 500; 1010; 1500; 2009; 2010; 3500] (power_on []))) =
    ["Hello World"; "Hello World"; "Hello World"]%string.
Proof.
  apply (sketch_prints 10 [500; 1010; 1500; 2009; 2010; 3500] (power_on [])).
  - reflexivity.
  - repeat split; vm_compute; congruence.
Defined.

(** X19: [reset] through the handle of a result. The result of the first
    poll of a call site, empty or not, carries the handle of that call
    site; [reset(getHandle(result))] at the time [t] sets its timer to
    the clock reading at [t], and no poll of the call site from then
    until [t + interval] fires or runs anything. *)
Theorem reset_by_result_handle {E R} (Tag : nat) (c : Call (Board E) R) (t0 t : Z)
    (interval : Z) (passes : list (Z * Call (Board E) R)) (w : World (Board E) R) :
  sites w !! Tag = None ->
  Forall (fun p => t <= fst p < t + wrap32 interval /\
                   interval_of (snd p) = interval) passes ->
  let m := fst (poll Tag board_millis c (at_time t0 w)) in
  let w1 := snd (poll Tag board_millis c (at_time t0 w)) in
  let w2 := reset (getHandle m) (at_time t w1) in
  getHandle m = Some Tag /\
  (exists h, sites w2 !! Tag = Some h /\ LocalHandle.last h = wrap32 t) /\
  fst (loop Tag passes w2) = replicate (length passes) (MaybeFactory.empty (Some Tag)) /\
  app (user (snd (loop Tag passes w2))) = app (user w1).
Proof.
  intros Hnone Hall. cbn zeta. rewrite poll_eq.
  pose proof (poll_result Tag board_millis (interval_of c) (runCondition_of c)
                (throttleCondition_of c) (callback_of c) (at_time t0 w)) as Hres.
  destruct (first_poll_stores Tag board_millis (interval_of c) (runCondition_of c)
              (throttleCondition_of c) (callback_of c) (at_time t0 w) Hnone)
    as (h & Hh & _ & Hmillis).
  destruct (every_if_throttled_impl _ _ _ _ _ _ (at_time t0 w)) as [m w1].
  destruct Hres as (Htag & _ & _). cbn [fst snd] in *. rewrite Htag.
  split; [done|].
  assert (Hw2 : reset (Some Tag) (at_time t w1) =
                mkWorld (<[Tag := LocalHandle.reset_at h (wrap32 t)]> (sites w1))
                        (mkBoard t (app (user w1)))).
  { unfold reset. cbn [sites at_time]. rewrite Hh.
    unfold LocalHandle.reset, call_millis. by rewrite Hmillis. }
  rewrite Hw2. split; [eexists; split; [apply lookup_insert_eq|done]|].
  match goal with |- context [loop Tag passes ?w2] =>
    pose proof (loop_not_due Tag interval passes w2
                  (LocalHandle.reset_at h (wrap32 t)) t
                  (lookup_insert_eq _ _ _) eq_refl Hall) as Hl end.
  destruct (loop Tag passes _) as [ms w3]. by destruct Hl as (-> & _ & Happ).
Qed.

Lemma reset_by_result_handle_witness :
  let c := exec_every 1000 report_dt in
  let m := fst (poll 0 board_millis c (at_time 0 (power_on tt))) in
  let w1 := snd (poll 0 board_millis c (at_time 0 (power_on tt))) in
  let w2 := reset (getHandle m) (at_time 900 w1) in
  Maybe.valid m = false /\
  fst (loop 0 (passes_at c [1000; 1500; 1899]) w2) =
    replicate 3 (MaybeFactory.empty (Some 0%nat)) /\
  Maybe.valid <$> head (fst (loop 0 (passes_at c [1900]) w2)) = Some true.
Proof.
  intros c m w1 w2.
  assert (Hall : Forall (fun p => 900 <= fst p < 900 + wrap32 1000 /\
                    interval_of (snd p) = 1000) (passes_at c [1000; 1500; 1899])).
  { repeat constructor; cbn; vm_compute; congruence. }
  pose proof (reset_by_result_handle 0 c 0 900 1000 _ (power_on tt) eq_refl Hall)
    as (_ & _ & H3 & _).
  split; [reflexivity|]. split; [exact H3|reflexivity].
Defined.

(** X20: over a run of the loop the conditional-at-deadline policy does
    what the comment on [every_if_impl] says: with conditions that are
    plain values and a counter that neither goes back nor wraps around,
    the polls fire as [schedule_if] says: a poll fires exactly when the
    interval has expired and its condition is true, and the timer
    restarts at every poll at which the interval has expired. *)
Theorem every_if_fires_on_schedule {E R} (Tag : nat) (interval : Z)
    (f : Callback (Board E) R) (tbs : list (Z * bool)) :
  forall (w : World (Board E) R) (h : LocalHandle.t (Board E) R) (since : Z),
  sites w !! Tag = Some h ->
  LocalHandle.last h = wrap32 since ->
  ascending since (map fst tbs) ->
  Forall (fun t => t < since + 2 ^ 32) (map fst tbs) ->
  map Maybe.valid (fst (loop Tag (passes_if interval f tbs) w)) =
    schedule_if (wrap32 interval) since tbs.
Proof.
  induction tbs as [|[t b] tbs IH]; intros w h since Hh Hlast Hasc Hall; [done|].
  destruct Hasc as [Hle Hasc]. apply Forall_cons in Hall as [Ht Hall].
  cbn [fst] in Hle, Hasc, Ht.
  unfold passes_if. cbn [map loop schedule_if fst snd].
  fold (passes_if (U := Board E) interval f tbs).
  rewrite (pass_constructed Tag _ t w h since Hh Hlast) by lia.
  cbn [interval_of throttleCondition_of runCondition_of eval]. cbn zeta.
  destruct (Z.leb_spec (wrap32 interval) (t - since)).
  - assert (Hall' : Forall (fun t' => t' < t + 2 ^ 32) (map fst tbs)).
    { eapply Forall_impl; [exact Hall|]. cbn. intros; lia. }
    destruct b; [destruct (invoke _ _ _) as [r u4]|];
      match goal with |- context [loop Tag _ ?w1] =>
        specialize (IH w1 (LocalHandle.reset_at h (wrap32 t)) t
                      (lookup_insert_eq _ _ _) eq_refl Hasc Hall') end;
      destruct (loop Tag _ _) as [ms w']; cbn in *; by rewrite IH.
  - specialize (IH (at_time t w) h since Hh Hlast (ascending_from _ _ _ Hle Hasc) Hall).
    destruct (loop Tag _ _) as [ms w']. cbn in *. by rewrite IH.
Qed.

Lemma every_if_fires_on_schedule_witness :
  let tbs := [(500, true); (1000, false); (1500, true); (2000, true); (3000, true)] in
  map Maybe.valid (fst (loop 0 (passes_if 1000 report_dt tbs) (started 0 0 report_dt tt))) =
    [false; false; false; true; true].
Proof.
  intros tbs.
  apply (every_if_fires_on_schedule 0 1000 report_dt tbs (started 0 0 report_dt tt)
           (LocalHandle.mk (wrap32 0) board_millis report_dt) 0).
  - reflexivity.
  - reflexivity.
  - repeat split; vm_compute; congruence.
  - repeat constructor.
Defined.

(** X21: over a run of the loop the throttled policy does what the
    comment on [throttled_impl] says: with conditions that are plain
    values and a counter that neither goes back nor wraps around, the
    polls fire as [schedule_throttled] says: a poll fires exactly when
    the interval has expired and its condition is true, and only a fire
    restarts the timer. *)
Theorem throttled_fires_on_schedule {E R} (Tag : nat) (interval : Z)
    (f : Callback (Board E) R) (tbs : list (Z * bool)) :
  forall (w : World (Board E) R) (h : LocalHandle.t (Board E) R) (since : Z),
  sites w !! Tag = Some h ->
  LocalHandle.last h = wrap32 since ->
  ascending since (map fst tbs) ->
  Forall (fun t => t < since + 2 ^ 32) (map fst tbs) ->
  map Maybe.valid (fst (loop Tag (passes_throttled interval f tbs) w)) =
    schedule_throttled (wrap32 interval) since tbs.
Proof.
  induction tbs as [|[t b] tbs IH]; intros w h since Hh Hlast Hasc Hall; [done|].
  destruct Hasc as [Hle Hasc]. apply Forall_cons in Hall as [Ht Hall].
  cbn [fst] in Hle, Hasc, Ht.
  unfold passes_throttled. cbn [map loop schedule_throttled fst snd].
  fold (passes_throttled (U := Board E) interval f tbs).
  rewrite (pass_constructed Tag _ t w h since Hh Hlast) by lia.
  cbn [interval_of throttleCondition_of runCondition_of eval]. cbn zeta.
  destruct (Z.leb_spec (wrap32 interval) (t - since)); cbn [andb].
  - destruct b.
    + assert (Hall' : Forall (fun t' => t' < t + 2 ^ 32) (map fst tbs)).
      { eapply Forall_impl; [exact Hall|]. cbn. intros; lia. }
      destruct (invoke _ _ _) as [r u4].
      match goal with |- context [loop Tag _ ?w1] =>
        specialize (IH w1 (LocalHandle.reset_at h (wrap32 t)) t
                      (lookup_insert_eq _ _ _) eq_refl Hasc Hall') end.
      destruct (loop Tag _ _) as [ms w']. cbn in *. by rewrite IH.
    + match goal with |- context [loop Tag _ ?w1] =>
        specialize (IH w1 h since Hh Hlast (ascending_from _ _ _ Hle Hasc) Hall) end.
      destruct (loop Tag _ _) as [ms w']. cbn in *. by rewrite IH.
  - specialize (IH (at_time t w) h since Hh Hlast (ascending_from _ _ _ Hle Hasc) Hall).
    destruct (loop Tag _ _) as [ms w']. cbn in *. by rewrite IH.
Qed.

Lemma throttled_fires_on_schedule_witness :
  let tbs := [(500, true); (1000, false); (1500, true); (2000, true); (3000, true)] in
  map Maybe.valid (fst (loop 0 (passes_throttled 1000 report_dt tbs)
                          (started 0 0 report_dt tt))) =
    [false; false; true; false; true].
Proof.
  intros tbs.
  apply (throttled_fires_on_schedule 0 1000 report_dt tbs (started 0 0 report_dt tt)
           (LocalHandle.mk (wrap32 0) board_millis report_dt) 0).
  - reflexivity.
  - reflexivity.
  - repeat split; vm_compute; congruence.
  - repeat constructor.
Defined.
